(** * irc/socket.go: the per-connection socket of the IRC server

    A shallow embedding of [Socket] (src/irc/socket.go) and of the
    operations [NewSocket], [Close], [CertFP], [Read], [Write],
    [WriteLine], [timedFillLineToSendExists] and [RunSocketWriter].

    The Go code is stateful: every method is a computation over a
    [World], which holds the fields of the [Socket], the state of the
    peer (what it still has to send, how the next writes end) and a
    chronological [trace] of the calls made on the mutex and on the
    connection.  Go strings are byte strings and are modelled by
    [string]; [len] is [String.length]. *)

From Stdlib Require Import ZArith List String Ascii Bool Lia.
Import ListNotations.
Local Open Scope string_scope.
Local Open Scope Z_scope.

(** ** Errors, connections and events *)

(** Go [error] values that the socket hands out.  [EOF] is [io.EOF];
    any error that comes from the network or from the TLS layer is an
    [ErrOther] carrying its message. *)
Inductive error : Type :=
| EOF
| errNotTLS
| errNoPeerCerts
| ErrOther (msg : string).

Definition error_eqb (a b : error) : bool :=
  match a, b with
  | EOF, EOF => true
  | errNotTLS, errNotTLS => true
  | errNoPeerCerts, errNoPeerCerts => true
  | ErrOther m, ErrOther n => String.eqb m n
  | _, _ => false
  end.

(** [err == io.EOF] on a possibly nil error. *)
Definition isEOF (err : option error) : bool :=
  match err with
  | Some e => error_eqb e EOF
  | None => false
  end.

Definition Error (e : error) : string :=
  match e with
  | EOF => "EOF"
  | errNotTLS => "Not a TLS connection"
  | errNoPeerCerts => "Client did not provide a certificate"
  | ErrOther msg => msg
  end.

(** [x509.Certificate], of which only [Raw] (the DER bytes) is read. *)
Record Certificate : Type := { Raw : list ascii }.

(** What a TLS connection answers: the result of [Handshake] and the
    [PeerCertificates] of its [ConnectionState]. *)
Record TLSConn : Type := {
  handshakeResult : option error;
  PeerCertificates : list Certificate
}.

(** One item of what the peer sends: a byte, or a failure of the
    underlying read.  The end of the list is the end of the stream. *)
Inductive incoming : Type :=
| Byte (b : ascii)
| ReadErr (e : error).

(** [net.Conn] together with the [bufio.Reader] wrapped around it.
    [asTLS] is the result of the type assertion of [conn] to a TLS
    connection;
    [writeResults] are the errors returned by the successive calls of
    [conn.Write] (nil once the list is used up). *)
Record Conn : Type := {
  asTLS : option TLSConn;
  unread : list incoming;
  writeResults : list (option error)
}.

(** Calls that leave the socket, in the order they are made. *)
Inductive event : Type :=
| EvLock
| EvUnlock
| EvSetLines (q : list string)
| EvConnWrite (payload : string)
| EvConnClose
| EvPrintln (msg : string)
| EvSetDeadline (ms : option Z)
| EvHandshake.

(** ** The socket *)

(** The fields of [Socket] ([Closed], [conn], [MaxSendQBytes],
    [FinalData], [linesToSend]); [wakers] are the goroutines started by
    [go socket.timedFillLineToSendExists(d)] that are still offering a
    value on the unbuffered channel [lineToSendExists], each with its
    timeout in milliseconds; [errOut] is the local variable of
    [RunSocketWriter]; [trace] is the history of calls. *)
Record World : Type := {
  Closed : bool;
  conn : Conn;
  MaxSendQBytes : Z;
  FinalData : string;
  linesToSend : list string;
  wakers : list Z;
  errOut : bool;
  trace : list event
}.

Definition set_Closed (b : bool) (w : World) : World :=
  {| Closed := b; conn := conn w; MaxSendQBytes := MaxSendQBytes w;
     FinalData := FinalData w; linesToSend := linesToSend w;
     wakers := wakers w; errOut := errOut w; trace := trace w |}.

Definition set_conn (c : Conn) (w : World) : World :=
  {| Closed := Closed w; conn := c; MaxSendQBytes := MaxSendQBytes w;
     FinalData := FinalData w; linesToSend := linesToSend w;
     wakers := wakers w; errOut := errOut w; trace := trace w |}.

Definition set_FinalData (s : string) (w : World) : World :=
  {| Closed := Closed w; conn := conn w; MaxSendQBytes := MaxSendQBytes w;
     FinalData := s; linesToSend := linesToSend w;
     wakers := wakers w; errOut := errOut w; trace := trace w |}.

Definition set_linesToSend (q : list string) (w : World) : World :=
  {| Closed := Closed w; conn := conn w; MaxSendQBytes := MaxSendQBytes w;
     FinalData := FinalData w; linesToSend := q;
     wakers := wakers w; errOut := errOut w; trace := trace w |}.

Definition set_wakers (l : list Z) (w : World) : World :=
  {| Closed := Closed w; conn := conn w; MaxSendQBytes := MaxSendQBytes w;
     FinalData := FinalData w; linesToSend := linesToSend w;
     wakers := l; errOut := errOut w; trace := trace w |}.

Definition set_errOut (b : bool) (w : World) : World :=
  {| Closed := Closed w; conn := conn w; MaxSendQBytes := MaxSendQBytes w;
     FinalData := FinalData w; linesToSend := linesToSend w;
     wakers := wakers w; errOut := b; trace := trace w |}.

Definition set_trace (t : list event) (w : World) : World :=
  {| Closed := Closed w; conn := conn w; MaxSendQBytes := MaxSendQBytes w;
     FinalData := FinalData w; linesToSend := linesToSend w;
     wakers := wakers w; errOut := errOut w; trace := t |}.

(** ** A state monad over [World] *)

Definition M (A : Type) : Type := World -> A * World.

Definition ret {A : Type} (a : A) : M A := fun w => (a, w).

Definition bind {A B : Type} (m : M A) (k : A -> M B) : M B :=
  fun w => k (fst (m w)) (snd (m w)).

Declare Scope go_scope.
Delimit Scope go_scope with go.
Notation "x <- m ;; k" := (bind m (fun x => k))
  (at level 61, m at next level, right associativity) : go_scope.
Notation "m ;; k" := (bind m (fun _ => k))
  (at level 61, right associativity) : go_scope.
Local Open Scope go_scope.

Definition gets {A : Type} (f : World -> A) : M A := fun w => (f w, w).
Definition modify (f : World -> World) : M unit := fun w => (tt, f w).
Definition emit (e : event) : M unit :=
  modify (fun w => set_trace (trace w ++ [e]) w).

(** [sync.Mutex]: the calls are recorded; whether they respect the
    discipline of the mutex is judged on the trace by [mutex_replay]. *)
Definition Lock : M unit := emit EvLock.
Definition Unlock : M unit := emit EvUnlock.

(** Assignment to [socket.linesToSend]. *)
Definition assignLines (q : list string) : M unit :=
  modify (set_linesToSend q) ;; emit (EvSetLines q).

(** [go socket.timedFillLineToSendExists(d)]: a new goroutine, which
    blocks in its [select] until the writer receives or [d] elapses; the
    caller goes on at once. *)
Definition go_timedFillLineToSendExists (ms : Z) : M unit :=
  modify (fun w => set_wakers (wakers w ++ [ms]) w).

(** [socket.conn.Write([]byte(data))]: the payload reaches the
    connection and the next of the [writeResults] is returned. *)
Definition connWrite (data : string) : M (option error) :=
  fun w =>
    let c := conn w in
    let w1 := set_trace (trace w ++ [EvConnWrite data]) w in
    match writeResults c with
    | [] => (None, w1)
    | r :: rest =>
        (r, set_conn {| asTLS := asTLS c; unread := unread c;
                        writeResults := rest |} w1)
    end.

Definition connClose : M unit := emit EvConnClose.

(** ** NewSocket, Close, Write, WriteLine *)

Definition NewSocket (c : Conn) (maxSendQBytes : Z) : World :=
  {| Closed := false; conn := c; MaxSendQBytes := maxSendQBytes;
     FinalData := ""; linesToSend := []; wakers := [];
     errOut := false; trace := [] |}.

Definition Close : M unit :=
  closed <- gets Closed ;;
  if closed then ret tt
  else
    modify (set_Closed true) ;;
    go_timedFillLineToSendExists 200.

Definition Write (data : string) : M (option error) :=
  closed <- gets Closed ;;
  if closed then ret (Some EOF)
  else
    Lock ;;
    lines <- gets linesToSend ;;
    assignLines (lines ++ [data]) ;;
    Unlock ;;
    closed' <- gets Closed ;;
    (if negb closed' then go_timedFillLineToSendExists 15000 else ret tt) ;;
    ret None.

Definition CRLF : string := String "013" (String "010" "").

Definition WriteLine (line : string) : M (option error) :=
  Write (line ++ CRLF).

(** ** RunSocketWriter *)

Definition len (s : string) : Z := Z.of_nat (String.length s).

(** Conversion to [uint64]: arithmetic on [sendQBytes] wraps around. *)
Definition uint64 (z : Z) : Z := z mod 2 ^ 64.

Definition SendQExceeded : string :=
  CRLF ++ "ERROR :SendQ Exceeded" ++ CRLF.

(** How control leaves the body of the [select] case: by [continue], which
    restarts the [for] loop, or by [break] or the end of the case, both of
    which go on to the test that follows the [select]. *)
Inductive ctl : Type :=
| CtlContinue
| CtlAfterSelect.

(** [for _, line := range socket.linesToSend], lines 164 to 170; the
    result is the value of [sendQBytes] when the range loop is left. *)
Fixpoint sendqLoop (lines : list string) (sendQBytes : Z) : M Z :=
  match lines with
  | [] => ret sendQBytes
  | line :: rest =>
      let sendQBytes := uint64 (sendQBytes + len line) in
      max <- gets MaxSendQBytes ;;
      if max <? sendQBytes then
        Unlock ;;
        ret sendQBytes
      else sendqLoop rest sendQBytes
  end.

(** The body of [case <-socket.lineToSendExists], lines 148 to 191. *)
Definition selectCase : M ctl :=
  Lock ;;
  closed <- gets Closed ;;
  if closed then
    Unlock ;;
    ret CtlAfterSelect
  else
    lines <- gets linesToSend ;;
    if Z.of_nat (List.length lines) <? 1 then
      Unlock ;;
      ret CtlContinue
    else
      sendQBytes <- sendqLoop lines 0 ;;
      max <- gets MaxSendQBytes ;;
      if max <? sendQBytes then
        modify (set_FinalData SendQExceeded) ;;
        Unlock ;;
        ret CtlAfterSelect
      else
        lines' <- gets linesToSend ;;
        let data := String.concat "" lines' in
        assignLines [] ;;
        Unlock ;;
        if 0 <? len data then
          err <- connWrite data ;;
          match err with
          | Some e =>
              modify (set_errOut true) ;;
              emit (EvPrintln (Error e)) ;;
              ret CtlAfterSelect
          | None => ret CtlAfterSelect
          end
        else ret CtlAfterSelect.

(** One turn of the [for] loop once a value has been received: the
    result tells whether the loop is left (line 193). *)
Definition loopBody : M bool :=
  c <- selectCase ;;
  match c with
  | CtlContinue => ret false
  | CtlAfterSelect =>
      e <- gets errOut ;;
      closed <- gets Closed ;;
      ret (e || closed)
  end.

(** [<-socket.lineToSendExists]: one of the goroutines that offer a
    value hands it over and ends; with none, the writer stays blocked. *)
Definition recv : M bool :=
  ws <- gets wakers ;;
  match ws with
  | [] => ret false
  | _ :: rest => modify (set_wakers rest) ;; ret true
  end.

(** [len(socket.lineToSendExists)]: the channel is made without a
    buffer, so it never holds a value. *)
Definition lenLineToSendExists (w : World) : Z := 0.

(** [for 0 < len(socket.lineToSendExists)], lines 208 to 210: one
    receive for each value that the channel holds. *)
Fixpoint emptyLineToSendExists (n : nat) : M unit :=
  match n with
  | O => ret tt
  | S n' => recv ;; emptyLineToSendExists n'
  end.

(** Lines 198 to 210, after the [for] loop. *)
Definition teardown : M unit :=
  closed <- gets Closed ;;
  (if negb closed then modify (set_Closed true) else ret tt) ;;
  fd <- gets FinalData ;;
  (if 0 <? len fd then connWrite fd ;; ret tt else ret tt) ;;
  connClose ;;
  n <- gets lenLineToSendExists ;;
  emptyLineToSendExists (Z.to_nat n).

(** Where the writer goroutine stands. *)
Inductive wstatus : Type :=
| Blocked      (* waiting in [select], nobody sends *)
| Looping      (* back at the head of the [for] loop *)
| Returned     (* [RunSocketWriter] has returned *)
| OutOfFuel.

Definition writerTurn : M wstatus :=
  got <- recv ;;
  if got then
    leave <- loopBody ;;
    if leave then teardown ;; ret Returned
    else ret Looping
  else ret Blocked.

Fixpoint writerLoop (fuel : nat) : M wstatus :=
  match fuel with
  | O => ret OutOfFuel
  | S fuel' =>
      st <- writerTurn ;;
      match st with
      | Looping => writerLoop fuel'
      | _ => ret st
      end
  end.

Definition RunSocketWriter (fuel : nat) : M wstatus :=
  modify (set_errOut false) ;;
  writerLoop fuel.

(** ** The discipline of the mutex, read off a trace *)

(** Replays the calls on the mutex from the state [held].  [None] is a
    call that a [sync.Mutex] does not allow to the goroutine that makes
    it: [Unlock] while the mutex is not held, which the Go runtime
    answers with the fatal error "sync: unlock of unlocked mutex", or
    [Lock] while the goroutine itself holds it. *)
Fixpoint mutex_replay (held : bool) (t : list event) : option bool :=
  match t with
  | [] => Some held
  | EvLock :: t' => if held then None else mutex_replay true t'
  | EvUnlock :: t' => if held then mutex_replay false t' else None
  | _ :: t' => mutex_replay held t'
  end.

Definition is_lock (e : event) : bool :=
  match e with EvLock => true | _ => false end.
Definition is_unlock (e : event) : bool :=
  match e with EvUnlock => true | _ => false end.
Definition is_connClose (e : event) : bool :=
  match e with EvConnClose => true | _ => false end.
Definition is_connWrite (e : event) : bool :=
  match e with EvConnWrite _ => true | _ => false end.

Definition count (p : event -> bool) (t : list event) : nat :=
  List.length (filter p t).

(** The total byte length of the queue, without wrap-around. *)
Fixpoint cumulative (lines : list string) : Z :=
  match lines with
  | [] => 0
  | line :: rest => len line + cumulative rest
  end.

(** The spec's test: some prefix of the queue is longer than [max]. *)
Definition exceeds (max : Z) (lines : list string) : Prop :=
  exists n : nat, max < cumulative (firstn n lines).

(** ** Read *)

(** [strings.TrimSpace] removes the leading and trailing white space of
    a string, white space being what [unicode.IsSpace] accepts, read as
    UTF-8: the six ASCII characters tab, line feed, vertical tab, form
    feed, carriage return and space, then U+0085 and U+00A0 (two bytes)
    and U+1680, U+2000 to U+200A, U+2028, U+2029, U+202F, U+205F and
    U+3000 (three bytes). *)
Definition code (b : ascii) : N := N_of_ascii b.

Definition asciiSpace (b : ascii) : bool :=
  ((9 <=? code b) && (code b <=? 13) || (code b =? 32))%N.

Definition spaceRune2 (b c : ascii) : bool :=
  ((code b =? 194) && ((code c =? 133) || (code c =? 160)))%N.

Definition spaceRune3 (b c d : ascii) : bool :=
  ((code b =? 225) && (code c =? 154) && (code d =? 128)
   || (code b =? 226) && (code c =? 128)
      && ((128 <=? code d) && (code d <=? 138)
          || (code d =? 168) || (code d =? 169) || (code d =? 175))
   || (code b =? 226) && (code c =? 129) && (code d =? 159)
   || (code b =? 227) && (code c =? 128) && (code d =? 128))%N.

Fixpoint trimLeftSpace (l : list ascii) : list ascii :=
  match l with
  | [] => []
  | b :: r =>
      if asciiSpace b then trimLeftSpace r
      else
        match r with
        | [] => l
        | c :: r' =>
            if spaceRune2 b c then trimLeftSpace r'
            else
              match r' with
              | [] => l
              | d :: r'' =>
                  if spaceRune3 b c d then trimLeftSpace r'' else l
              end
        end
  end.

(** The same from the end, on the reversed bytes: the last rune is
    decoded from the nearest byte that starts a rune. *)
Fixpoint trimRevSpace (l : list ascii) : list ascii :=
  match l with
  | [] => []
  | z :: r =>
      if asciiSpace z then trimRevSpace r
      else
        match r with
        | [] => l
        | y :: r' =>
            if spaceRune2 y z then trimRevSpace r'
            else
              match r' with
              | [] => l
              | x :: r'' =>
                  if spaceRune3 x y z then trimRevSpace r'' else l
              end
        end
  end.

Definition TrimSpace (s : string) : string :=
  string_of_list_ascii
    (rev (trimRevSpace (rev (trimLeftSpace (list_ascii_of_string s))))).

Definition inCutset (cutset : string) (b : ascii) : bool :=
  existsb (Ascii.eqb b) (list_ascii_of_string cutset).

Fixpoint dropWhile {A : Type} (p : A -> bool) (l : list A) : list A :=
  match l with
  | [] => []
  | x :: r => if p x then dropWhile p r else l
  end.

(** [strings.TrimRight] for a cutset of ASCII characters: the trailing
    bytes that belong to the cutset are removed. *)
Definition TrimRight (s cutset : string) : string :=
  string_of_list_ascii
    (rev (dropWhile (inCutset cutset) (rev (list_ascii_of_string s)))).

(** What [bufio.Reader.ReadBytes] finds: the bytes up to and including
    the first [delim]; or, when the stream fails or ends before, the
    bytes read until then together with the error. *)
Fixpoint readUntil (delim : ascii) (l : list incoming)
  : list ascii * option error * list incoming :=
  match l with
  | [] => ([], Some EOF, [])
  | ReadErr e :: rest => ([], Some e, rest)
  | Byte b :: rest =>
      if Ascii.eqb b delim then ([b], None, rest)
      else
        let '(bs, err, rest') := readUntil delim rest in
        (b :: bs, err, rest')
  end.

Definition ReadBytes (delim : ascii) : M (list ascii * option error) :=
  fun w =>
    let c := conn w in
    let '(bs, err, rest) := readUntil delim (unread c) in
    ((bs, err),
     set_conn {| asTLS := asTLS c; unread := rest;
                 writeResults := writeResults c |} w).

Definition LF : ascii := "010"%char.

Definition Read : M (string * option error) :=
  closed <- gets Closed ;;
  if closed then ret ("", Some EOF)
  else
    r <- ReadBytes LF ;;
    let lineBytes := fst r in
    let err := snd r in
    let line := string_of_list_ascii lineBytes in
    (if isEOF err then Close else ret tt) ;;
    if isEOF err && negb (String.eqb (TrimSpace line) "") then
      ret (TrimRight line CRLF, None)
    else
      match err with
      | Some e => ret ("", Some e)
      | None => ret (TrimRight line CRLF, None)
      end.

(** ** CertFP *)

(** [crypto/sha256]: SHA-256 as in FIPS 180-4, on 32-bit words held in
    [Z] with the wrap-around written out. *)
Module SHA256.

Definition w32 (z : Z) : Z := z mod 2 ^ 32.
Definition add32 (x y : Z) : Z := w32 (x + y).
Definition rotr (n x : Z) : Z :=
  Z.lor (Z.shiftr x n) (w32 (Z.shiftl x (32 - n))).

Definition Ch (x y z : Z) : Z :=
  Z.lxor (Z.land x y) (Z.land (Z.lnot x) z).
Definition Maj (x y z : Z) : Z :=
  Z.lxor (Z.lxor (Z.land x y) (Z.land x z)) (Z.land y z).
Definition bsig0 (x : Z) : Z :=
  Z.lxor (Z.lxor (rotr 2 x) (rotr 13 x)) (rotr 22 x).
Definition bsig1 (x : Z) : Z :=
  Z.lxor (Z.lxor (rotr 6 x) (rotr 11 x)) (rotr 25 x).
Definition ssig0 (x : Z) : Z :=
  Z.lxor (Z.lxor (rotr 7 x) (rotr 18 x)) (Z.shiftr x 3).
Definition ssig1 (x : Z) : Z :=
  Z.lxor (Z.lxor (rotr 17 x) (rotr 19 x)) (Z.shiftr x 10).

(** The constants of FIPS 180-4 are taken from the first 64 primes: the
    words [K] are the first 32 bits of the fractional parts of their
    cube roots, and the initial hash value those of the square roots of
    the first eight. *)
Definition primes : list Z :=
  [ 2; 3; 5; 7; 11; 13; 17; 19; 23; 29; 31; 37; 41; 43; 47; 53;
    59; 61; 67; 71; 73; 79; 83; 89; 97; 101; 103; 107; 109; 113; 127; 131;
    137; 139; 149; 151; 157; 163; 167; 173; 179; 181; 191; 193; 197; 199; 211; 223;
    227; 229; 233; 239; 241; 251; 257; 263; 269; 271; 277; 281; 283; 293; 307; 311 ].

(** The largest [r] in [[lo, hi)] with [r ^ 3 <= n], by bisection. *)
Fixpoint cbrt_between (fuel : nat) (lo hi n : Z) : Z :=
  match fuel with
  | O => lo
  | S fuel' =>
      if hi - lo <=? 1 then lo
      else
        let mid := (lo + hi) / 2 in
        if mid * mid * mid <=? n then cbrt_between fuel' mid hi n
        else cbrt_between fuel' lo mid n
  end.

Definition frac_cbrt (p : Z) : Z :=
  w32 (cbrt_between 40 0 (2 ^ 35) (p * 2 ^ 96)).

Definition frac_sqrt (p : Z) : Z := w32 (Z.sqrt (p * 2 ^ 64)).

Definition K : list Z := map frac_cbrt primes.

Definition state : Type := (Z * Z * Z * Z * Z * Z * Z * Z)%type.

Definition init : state :=
  (frac_sqrt 2, frac_sqrt 3, frac_sqrt 5, frac_sqrt 7,
   frac_sqrt 11, frac_sqrt 13, frac_sqrt 17, frac_sqrt 19).

(** The padded message: the byte 0x80, zero bytes up to 56 modulo 64,
    and the length in bits as eight big-endian bytes. *)
Definition be_bytes (n : nat) (z : Z) : list Z :=
  map (fun i => Z.shiftr z (8 * (Z.of_nat (n - 1 - i))) mod 256) (seq 0 n).

Definition pad (msg : list Z) : list Z :=
  let l := Z.of_nat (List.length msg) in
  msg ++ [128] ++ repeat 0 (Z.to_nat ((55 - l) mod 64))
      ++ be_bytes 8 ((8 * l) mod 2 ^ 64).

Fixpoint words (bs : list Z) : list Z :=
  match bs with
  | a :: b :: c :: d :: rest =>
      (((a * 256 + b) * 256 + c) * 256 + d) :: words rest
  | _ => []
  end.

(** The message schedule, newest word first. *)
Fixpoint extend (n : nat) (ws : list Z) : list Z :=
  match n with
  | O => ws
  | S n' =>
      let w := add32 (add32 (ssig1 (nth 1 ws 0)) (nth 6 ws 0))
                     (add32 (ssig0 (nth 14 ws 0)) (nth 15 ws 0)) in
      extend n' (w :: ws)
  end.

Definition schedule (block : list Z) : list Z :=
  rev (extend 48 (rev (words block))).

Definition round (s : state) (kw : Z * Z) : state :=
  let '(a, b, c, d, e, f, g, h) := s in
  let t1 := add32 (add32 (add32 h (bsig1 e)) (add32 (Ch e f g) (fst kw)))
                  (snd kw) in
  let t2 := add32 (bsig0 a) (Maj a b c) in
  (add32 t1 t2, a, b, c, add32 d t1, e, f, g).

Definition compress (s : state) (block : list Z) : state :=
  let '(a, b, c, d, e, f, g, h) := s in
  let '(a', b', c', d', e', f', g', h') :=
    fold_left round (combine K (schedule block)) s in
  (add32 a a', add32 b b', add32 c c', add32 d d',
   add32 e e', add32 f f', add32 g g', add32 h h').

Fixpoint blocks (n : nat) (s : state) (bs : list Z) : state :=
  match n with
  | O => s
  | S n' => blocks n' (compress s (firstn 64 bs)) (skipn 64 bs)
  end.

Definition digest (s : state) : list Z :=
  let '(a, b, c, d, e, f, g, h) := s in
  flat_map (be_bytes 4) [a; b; c; d; e; f; g; h].

Definition hash (msg : list Z) : list Z :=
  let p := pad msg in
  digest (blocks (List.length p / 64) init p).

End SHA256.

(** [sha256.Sum256] on Go bytes; the result is the [[32]byte] array. *)
Definition Sum256 (data : list ascii) : list ascii :=
  map (fun z => ascii_of_N (Z.to_N z))
      (SHA256.hash (map (fun b => Z.of_N (N_of_ascii b)) data)).

(** [encoding/hex]. *)
Definition hextable : string := "0123456789abcdef".

Definition hexdigit (i : N) : ascii :=
  match String.get (N.to_nat i) hextable with
  | Some c => c
  | None => "0"%char
  end.

Fixpoint EncodeToString (src : list ascii) : string :=
  match src with
  | [] => ""
  | v :: rest =>
      String (hexdigit (N.shiftr (code v) 4))
             (String (hexdigit (N.land (code v) 15)) (EncodeToString rest))
  end.

(** [handshakeTimeout], in milliseconds. *)
Definition handshakeTimeout : Z := 5000.

Definition CertFP : M (string * option error) :=
  c <- gets conn ;;
  match asTLS c with
  | None => ret ("", Some errNotTLS)
  | Some tlsConn =>
      emit (EvSetDeadline (Some handshakeTimeout)) ;;
      emit EvHandshake ;;
      let err := handshakeResult tlsConn in
      emit (EvSetDeadline None) ;;
      match err with
      | Some e => ret ("", Some e)
      | None =>
          match PeerCertificates tlsConn with
          | [] => ret ("", Some errNoPeerCerts)
          | leaf :: _ =>
              let rawCert := Sum256 (Raw leaf) in
              let fingerprint := EncodeToString rawCert in
              ret (fingerprint, None)
          end
      end
  end.

(** ** The socket among its goroutines *)

(** [socket.timedFillLineToSendExists] ends in one of two ways: the
    writer receives its value (see [recv]) or its timer fires.  Here the
    [i]-th of the waiting goroutines times out. *)
Fixpoint remove_nth {A : Type} (i : nat) (l : list A) : list A :=
  match l, i with
  | [], _ => []
  | _ :: r, O => r
  | x :: r, S i' => x :: remove_nth i' r
  end.

Definition timeout (i : nat) : M unit :=
  modify (fun w => set_wakers (remove_nth i (wakers w)) w).

(** The calls that the server makes on one socket, interleaved with the
    turns of the goroutine that runs [RunSocketWriter]. *)
Inductive action : Type :=
| ActWrite (data : string)
| ActWriteLine (line : string)
| ActClose
| ActRead
| ActCertFP
| ActWriter
| ActTimeout (i : nat).

Record System : Type := {
  world : World;
  writer : wstatus
}.

(** A new socket whose writer has been started. *)
Definition start (c : Conn) (maxSendQBytes : Z) : System :=
  {| world := NewSocket c maxSendQBytes; writer := Looping |}.

Definition step (s : System) (a : action) : System :=
  let w := world s in
  match a with
  | ActWrite data => {| world := snd (Write data w); writer := writer s |}
  | ActWriteLine line =>
      {| world := snd (WriteLine line w); writer := writer s |}
  | ActClose => {| world := snd (Close w); writer := writer s |}
  | ActRead => {| world := snd (Read w); writer := writer s |}
  | ActCertFP => {| world := snd (CertFP w); writer := writer s |}
  | ActWriter =>
      match writer s with
      | Returned => s
      | _ => {| world := snd (writerTurn w); writer := fst (writerTurn w) |}
      end
  | ActTimeout i => {| world := snd (timeout i w); writer := writer s |}
  end.

Definition run (acts : list action) (s : System) : System :=
  fold_left step acts s.

(** Sample connections and sockets. *)
Definition bytes (s : string) : list ascii := list_ascii_of_string s.

Definition plainConn (received : string) : Conn :=
  {| asTLS := None; unread := map Byte (bytes received);
     writeResults := [] |}.

(** ** Auxiliary definitions for the statements *)

Local Open Scope list_scope.

(** The value of [sendQBytes] when the range loop of lines 164 to 170
    is left, and whether it is left by its [break]. *)
Fixpoint sendQ (max : Z) (lines : list string) (acc : Z) : Z :=
  match lines with
  | [] => acc
  | line :: rest =>
      let acc' := uint64 (acc + len line) in
      if max <? acc' then acc' else sendQ max rest acc'
  end.

Fixpoint broke (max : Z) (lines : list string) (acc : Z) : bool :=
  match lines with
  | [] => false
  | line :: rest =>
      let acc' := uint64 (acc + len line) in
      if max <? acc' then true else broke max rest acc'
  end.

(** What follows the release of the lock on the path that writes. *)
Definition flushed (data : string) (w : World) : World :=
  if 0 <? len data then
    match fst (connWrite data w) with
    | Some e =>
        set_trace (trace (snd (connWrite data w)) ++ [EvPrintln (Error e)])
          (set_errOut true (snd (connWrite data w)))
    | None => snd (connWrite data w)
    end
  else w.

(** A queue of [Write] calls made one after the other. *)
Definition writes (ds : list string) (w : World) : World :=
  fold_left (fun w' d => snd (Write d w')) ds w.

(** A socket with a limit of four bytes, on which the server has called
    [WriteLine "PING"]: six bytes are queued. *)
Definition breachSocket : World :=
  snd (WriteLine "PING" (NewSocket (plainConn "") 4)).

(** A socket on which the server has called [Write ""]. *)
Definition emptyLineSocket : World :=
  snd (Write "" (NewSocket (plainConn "") 512)).

(** An open socket whose writer has not failed and whose queue is over
    the limit. *)
Definition breached (w : World) : Prop :=
  Closed w = false /\ errOut w = false /\ linesToSend w <> []
  /\ broke (MaxSendQBytes w) (linesToSend w) 0 = true.

(** The write of [FinalData] in the teardown, line 202. *)
Definition finalWrite (fd : string) : list event :=
  if 0 <? len fd then [EvConnWrite fd] else [].

(** An operation that adds to the trace no close of the connection,
    leaves [FinalData] alone and does not reopen a closed socket. *)
Definition leaves_conn_open {A : Type} (m : M A) : Prop :=
  forall w : World,
    (exists delta, trace (snd (m w)) = trace w ++ delta
                   /\ count is_connClose delta = 0%nat)
    /\ FinalData (snd (m w)) = FinalData w
    /\ (Closed w = true -> Closed (snd (m w)) = true).

(** What holds of the socket and its writer at every moment: before
    [RunSocketWriter] returns the connection has not been closed; once
    it has returned, the socket is closed and the trace holds one close
    of the connection, right after the write of [FinalData] if there is
    any. *)
Definition closed_once (s : System) : Prop :=
  match writer s with
  | Returned =>
      Closed (world s) = true
      /\ exists pre post,
           trace (world s) =
           pre ++ finalWrite (FinalData (world s)) ++ [EvConnClose] ++ post
           /\ count is_connClose pre = 0%nat
           /\ count is_connClose post = 0%nat
  | _ => count is_connClose (trace (world s)) = 0%nat
  end.

(** Whether the last byte of a string is a carriage return or a line
    feed. *)
Definition endsInCRLF (s : string) : bool :=
  match rev (list_ascii_of_string s) with
  | [] => false
  | b :: _ => inCutset CRLF b
  end.

(** A socket whose peer sends ["PING\n"] and then closes the stream. *)
Definition pingSocket : World :=
  NewSocket (plainConn (String.append "PING" (String LF ""))) 512.

(** A socket whose peer sends one space and then closes the stream. *)
Definition blankSocket : World := NewSocket (plainConn " ") 512.

(** A socket whose peer sends ["QUIT :bye\r"], without a line feed, and
    then closes the stream. *)
Definition quitSocket : World :=
  NewSocket (plainConn (String.append "QUIT :bye" (String "013" ""))) 512.

(** A socket whose connection is reset after the bytes ["PRIV"]. *)
Definition resetSocket : World :=
  NewSocket
    {| asTLS := None;
       unread := map Byte (bytes "PRIV")
                   ++ [ReadErr (ErrOther "connection reset by peer")];
       writeResults := [] |} 512.

(** A socket whose peer sends ["PING\r\n"] and more. *)
Definition lineSocket : World :=
  NewSocket (plainConn (String.append "PING" (String.append CRLF "NICK"))) 512.

Definition isLowerHex (c : ascii) : bool :=
  existsb (Ascii.eqb c) (list_ascii_of_string hextable).

(** A connection on which the first write fails. *)
Definition brokenConn : Conn :=
  {| asTLS := None; unread := [];
     writeResults := [Some (ErrOther "broken pipe")] |}.

(** Whether the next [conn.Write] returns an error. *)
Definition writeFails (w : World) : bool :=
  match writeResults (conn w) with
  | Some _ :: _ => true
  | _ => false
  end.


(** The bytes handed to [conn.Write], in order. *)
Fixpoint written (t : list event) : string :=
  match t with
  | [] => ""
  | EvConnWrite payload :: t' => String.append payload (written t')
  | _ :: t' => written t'
  end.

(** The bytes that the call [a], made in the state [s], puts in the
    queue: those of a [Write] or [WriteLine] on an open socket. *)
Definition queued (a : action) (s : System) : string :=
  match a with
  | ActWrite data => if Closed (world s) then "" else data
  | ActWriteLine line =>
      if Closed (world s) then "" else String.append line CRLF
  | _ => ""
  end.

(** The bytes that the calls among [acts] queue when they are made
    from [s] on. *)
Fixpoint accepted (acts : list action) (s : System) : string :=
  match acts with
  | [] => ""
  | a :: rest => String.append (queued a s) (accepted rest (step s a))
  end.



(** [n] calls of [Read], one after the other; the results are in the
    order of the calls. *)
Fixpoint reads (n : nat) (w : World)
  : list (string * option error) * World :=
  match n with
  | O => ([], w)
  | S n' =>
      let r := Read w in
      let rs := reads n' (snd r) in
      (fst r :: fst rs, snd rs)
  end.

(** The stream that [WriteLine] produces for a list of lines. *)
Fixpoint framed (lines : list string) : string :=
  match lines with
  | [] => ""
  | line :: rest => String.append (String.append line CRLF) (framed rest)
  end.

(** A line that [Read] hands back unchanged: no line feed inside, no
    carriage return or line feed at its end. *)
Definition plainLine (line : string) : Prop :=
  ~ In LF (list_ascii_of_string line) /\ endsInCRLF line = false.

(** The value of a hexadecimal digit of [hextable]. *)
Definition hexvalue (c : ascii) : N :=
  let n := code c in
  (if n <? 58 then n - 48 else n - 87)%N.

(** A socket over TLS whose peer presented the certificate [der]. *)
Definition tlsSocket (handshake : option error) (der : list string) : World :=
  NewSocket
    {| asTLS := Some {| handshakeResult := handshake;
                        PeerCertificates :=
                          map (fun d => {| Raw := bytes d |}) der |};
       unread := []; writeResults := [] |} 512.

(** The calls that [CertFP] makes on the connection. *)
Definition certFPCalls (w : World) : list event :=
  match asTLS (conn w) with
  | None => []
  | Some _ =>
      [EvSetDeadline (Some handshakeTimeout); EvHandshake; EvSetDeadline None]
  end.

(** [FinalData] as [NewSocket] leaves it, or the sendq notice. *)
Definition emptyOrNotice (fd : string) : Prop :=
  fd = "" \/ fd = SendQExceeded.



(** * Properties *)

Ltac go_unfold :=
  unfold bind, ret, gets, modify, emit, Lock, Unlock, assignLines,
    go_timedFillLineToSendExists, connClose, set_Closed, set_conn,
    set_FinalData, set_linesToSend, set_wakers, set_errOut, set_trace in *.

Ltac go_simpl :=
  repeat progress
    (go_unfold;
     cbn [fst snd negb andb orb
          Closed conn MaxSendQBytes FinalData linesToSend wakers
          errOut trace set_Closed set_conn set_FinalData set_linesToSend
          set_wakers set_errOut set_trace] in *).

(** ** Close and Write *)

Lemma Close_closed (w : World) :
  Closed w = true -> Close w = (tt, w).
Proof.
  intros H. unfold Close. go_simpl. rewrite H. reflexivity.
Qed.

Lemma Close_open (w : World) :
  Closed w = false ->
  Close w = (tt, set_wakers (wakers w ++ [200]) (set_Closed true w)).
Proof.
  intros H. unfold Close. go_simpl. rewrite H. reflexivity.
Qed.

Lemma Close_sets_Closed (w : World) : Closed (snd (Close w)) = true.
Proof.
  destruct (Closed w) eqn:E.
  - rewrite Close_closed by assumption. exact E.
  - rewrite Close_open by assumption. reflexivity.
Qed.

Lemma Close_trace (w : World) : trace (snd (Close w)) = trace w.
Proof.
  destruct (Closed w) eqn:E.
  - rewrite Close_closed by assumption. reflexivity.
  - rewrite Close_open by assumption. reflexivity.
Qed.

(** C8: [Close] does nothing on a closed socket, so a second call adds
    nothing to the first; on an open socket it sets [Closed] and starts
    one goroutine that offers the wake for 200ms, and that is all: the
    connection, the queue and the trace of calls (so no close of the
    connection) stay as they were, and [Close] returns without waiting
    for a receiver. *)
Theorem Close_idempotent_and_local (w : World) :
  snd (Close (snd (Close w))) = snd (Close w)
  /\ (if Closed w
      then Close w = (tt, w)
      else Close w = (tt, set_wakers (wakers w ++ [200]) (set_Closed true w)))
  /\ Closed (snd (Close w)) = true
  /\ conn (snd (Close w)) = conn w
  /\ linesToSend (snd (Close w)) = linesToSend w
  /\ FinalData (snd (Close w)) = FinalData w
  /\ trace (snd (Close w)) = trace w.
Proof.
  split.
  - rewrite (Close_closed (snd (Close w))); [reflexivity|].
    apply Close_sets_Closed.
  - destruct (Closed w) eqn:E.
    + rewrite (Close_closed w E). cbn. repeat split; assumption.
    + rewrite (Close_open w E). cbn. repeat split.
Qed.

Lemma Write_closed (data : string) (w : World) :
  Closed w = true -> Write data w = (Some EOF, w).
Proof.
  intros H. unfold Write. go_simpl. rewrite H. reflexivity.
Qed.

Lemma Write_open (data : string) (w : World) :
  Closed w = false ->
  Write data w =
  (None,
   set_wakers (wakers w ++ [15000])
     (set_trace
        (trace w ++ [EvLock; EvSetLines (linesToSend w ++ [data]); EvUnlock])
        (set_linesToSend (linesToSend w ++ [data]) w))).
Proof.
  intros H. unfold Write. go_simpl. rewrite H. cbn. rewrite H. cbn.
  rewrite <- !app_assoc. reflexivity.
Qed.

(** C4: on a closed socket [Write] returns [io.EOF] and changes nothing;
    on an open one it returns nil and [data] becomes the last element of
    the queue, the elements before it unchanged. *)
Theorem Write_closed_or_appended (data : string) (w : World) :
  if Closed w
  then Write data w = (Some EOF, w)
  else fst (Write data w) = None
       /\ linesToSend (snd (Write data w)) = linesToSend w ++ [data]
       /\ last (linesToSend (snd (Write data w))) "" = data.
Proof.
  destruct (Closed w) eqn:E.
  - apply Write_closed; assumption.
  - rewrite (Write_open data w E). cbn. repeat split.
    apply last_last.
Qed.

(** ** The sendq test *)

Lemma sendqLoop_spec (lines : list string) :
  forall (acc : Z) (w : World),
    sendqLoop lines acc w =
    (sendQ (MaxSendQBytes w) lines acc,
     if broke (MaxSendQBytes w) lines acc
     then set_trace (trace w ++ [EvUnlock]) w
     else w).
Proof.
  induction lines as [|line rest IH]; intros acc w.
  - reflexivity.
  - cbn [sendqLoop sendQ broke]. go_simpl.
    destruct (MaxSendQBytes w <? uint64 (acc + len line)) eqn:E.
    + reflexivity.
    + apply IH.
Qed.

Lemma broke_sendQ (max : Z) (lines : list string) :
  forall acc, broke max lines acc = true -> (max <? sendQ max lines acc) = true.
Proof.
  induction lines as [|line rest IH]; intros acc; cbn [broke sendQ].
  - discriminate.
  - destruct (max <? uint64 (acc + len line)) eqn:E; auto.
Qed.

Lemma not_broke_sendQ_from (max : Z) (lines : list string) :
  forall acc, (max <? acc) = false ->
    broke max lines acc = false -> (max <? sendQ max lines acc) = false.
Proof.
  induction lines as [|line rest IH]; intros acc Hacc; cbn [broke sendQ].
  - auto.
  - destruct (max <? uint64 (acc + len line)) eqn:E; [discriminate|].
    intros H. apply IH; assumption.
Qed.

Lemma not_broke_sendQ (max : Z) (lines : list string) (acc : Z) :
  lines <> [] ->
  broke max lines acc = false -> (max <? sendQ max lines acc) = false.
Proof.
  destruct lines as [|line rest]; [congruence|]. intros _.
  cbn [broke sendQ].
  destruct (max <? uint64 (acc + len line)) eqn:E; [discriminate|].
  apply not_broke_sendQ_from. exact E.
Qed.

Lemma len_nonneg (s : string) : 0 <= len s.
Proof. unfold len. lia. Qed.

Lemma cumulative_nonneg (lines : list string) : 0 <= cumulative lines.
Proof.
  induction lines as [|l r IH]; cbn [cumulative]; [lia|].
  pose proof (len_nonneg l). lia.
Qed.

Lemma cumulative_app (l1 l2 : list string) :
  cumulative (l1 ++ l2) = cumulative l1 + cumulative l2.
Proof.
  induction l1 as [|x r IH]; cbn [cumulative app]; lia.
Qed.

(** While the byte count fits in 64 bits, the loop leaves by [break]
    exactly when some prefix of the queue is longer than the limit. *)
Lemma broke_within (max : Z) (lines : list string) :
  forall acc, 0 <= acc -> acc + cumulative lines <= max -> max < 2 ^ 64 ->
    broke max lines acc = false.
Proof.
  induction lines as [|line rest IH]; intros acc H0 Hle Hmax;
    cbn [broke cumulative] in *; [reflexivity|].
  pose proof (len_nonneg line) as Hl.
  pose proof (cumulative_nonneg rest) as Hc.
  unfold uint64. rewrite Z.mod_small by lia.
  destruct (max <? acc + len line) eqn:E.
  - apply Z.ltb_lt in E. lia.
  - apply IH; lia.
Qed.

Lemma broke_exceeds (max : Z) (lines : list string) :
  forall acc, 0 <= acc <= max -> acc + cumulative lines < 2 ^ 64 ->
    (broke max lines acc = true <->
     exists n : nat, max < acc + cumulative (firstn n lines)).
Proof.
  induction lines as [|line rest IH]; intros acc Hacc Hfit;
    cbn [broke cumulative] in *.
  - split; [discriminate|].
    intros [n Hn]. rewrite firstn_nil in Hn. cbn in Hn. lia.
  - pose proof (len_nonneg line) as Hl.
    pose proof (cumulative_nonneg rest) as Hc.
    unfold uint64. rewrite Z.mod_small by lia.
    destruct (max <? acc + len line) eqn:E.
    + apply Z.ltb_lt in E. split; [intros _|reflexivity].
      exists 1%nat. cbn. lia.
    + apply Z.ltb_ge in E.
      rewrite (IH (acc + len line)) by lia.
      split; intros [n Hn].
      * exists (S n). cbn [firstn cumulative]. lia.
      * destruct n as [|n]; cbn [firstn cumulative] in Hn; [lia|].
        exists n. lia.
Qed.

(** ** The paths through the select case *)

Lemma selectCase_closed (w : World) :
  Closed w = true ->
  selectCase w =
  (CtlAfterSelect, set_trace (trace w ++ [EvLock; EvUnlock]) w).
Proof.
  intros H. unfold selectCase. go_simpl. rewrite H. go_simpl.
  rewrite <- app_assoc. reflexivity.
Qed.

Lemma selectCase_empty (w : World) :
  Closed w = false -> linesToSend w = [] ->
  selectCase w = (CtlContinue, set_trace (trace w ++ [EvLock; EvUnlock]) w).
Proof.
  intros H Hq. unfold selectCase. go_simpl. rewrite H. go_simpl.
  rewrite Hq. cbn. rewrite <- app_assoc. reflexivity.
Qed.

Lemma length_ltb_1 {A : Type} (l : list A) :
  l <> [] -> (Z.of_nat (List.length l) <? 1) = false.
Proof.
  destruct l; [congruence|]. intros _. apply Z.ltb_ge. cbn [List.length]. lia.
Qed.

Lemma selectCase_breach (w : World) :
  Closed w = false -> linesToSend w <> [] ->
  broke (MaxSendQBytes w) (linesToSend w) 0 = true ->
  selectCase w =
  (CtlAfterSelect,
   set_trace (trace w ++ [EvLock; EvUnlock; EvUnlock])
     (set_FinalData SendQExceeded w)).
Proof.
  intros H Hq Hb. unfold selectCase. go_simpl. rewrite H. go_simpl.
  rewrite (length_ltb_1 _ Hq). go_simpl. rewrite !sendqLoop_spec. go_simpl.
  rewrite Hb. go_simpl. rewrite (broke_sendQ _ _ _ Hb). go_simpl.
  rewrite <- !app_assoc. reflexivity.
Qed.

Lemma selectCase_drain (w : World) :
  Closed w = false -> linesToSend w <> [] ->
  broke (MaxSendQBytes w) (linesToSend w) 0 = false ->
  selectCase w =
  (CtlAfterSelect,
   flushed (String.concat "" (linesToSend w))
     (set_trace (trace w ++ [EvLock; EvSetLines []; EvUnlock])
        (set_linesToSend [] w))).
Proof.
  intros H Hq Hb. unfold selectCase. go_simpl. rewrite H. go_simpl.
  rewrite (length_ltb_1 _ Hq). go_simpl. rewrite !sendqLoop_spec. go_simpl.
  rewrite Hb. go_simpl.
  rewrite (not_broke_sendQ _ _ 0) by assumption.
  go_simpl. unfold flushed. rewrite <- !app_assoc. cbn [app].
  destruct (0 <? len (String.concat "" (linesToSend w))) eqn:E.
  - unfold connWrite. go_simpl.
    destruct (writeResults (conn w)) as [|[e|] rest]; go_simpl; reflexivity.
  - reflexivity.
Qed.

(** ** Counting events *)

Lemma count_app (p : event -> bool) (t1 t2 : list event) :
  count p (t1 ++ t2) = (count p t1 + count p t2)%nat.
Proof.
  unfold count. rewrite filter_app, length_app. reflexivity.
Qed.

Lemma flushed_fields (data : string) (w : World) :
  Closed (flushed data w) = Closed w
  /\ linesToSend (flushed data w) = linesToSend w
  /\ FinalData (flushed data w) = FinalData w
  /\ MaxSendQBytes (flushed data w) = MaxSendQBytes w
  /\ wakers (flushed data w) = wakers w
  /\ count is_connClose (trace (flushed data w))
     = count is_connClose (trace w).
Proof.
  unfold flushed, connWrite.
  destruct (0 <? len data); [|repeat split].
  destruct (writeResults (conn w)) as [|[e|] rest]; go_simpl;
    repeat split; rewrite ?count_app; cbn; lia.
Qed.

Lemma flushed_trace (data : string) (w : World) :
  trace (flushed data w) =
  trace w ++
  (if 0 <? len data then
     EvConnWrite data ::
     match writeResults (conn w) with
     | Some e :: _ => [EvPrintln (Error e)]
     | _ => []
     end
   else []).
Proof.
  unfold flushed, connWrite.
  destruct (0 <? len data); [|symmetry; apply app_nil_r].
  destruct (writeResults (conn w)) as [|[e|] rest]; go_simpl;
    rewrite <- ?app_assoc; reflexivity.
Qed.

(** The four ways through the select case cover every socket. *)
Lemma selectCase_cases (w : World) :
  (Closed w = true
   /\ selectCase w =
      (CtlAfterSelect, set_trace (trace w ++ [EvLock; EvUnlock]) w))
  \/ (Closed w = false /\ linesToSend w = []
      /\ selectCase w =
         (CtlContinue, set_trace (trace w ++ [EvLock; EvUnlock]) w))
  \/ (Closed w = false /\ linesToSend w <> []
      /\ broke (MaxSendQBytes w) (linesToSend w) 0 = true
      /\ selectCase w =
         (CtlAfterSelect,
          set_trace (trace w ++ [EvLock; EvUnlock; EvUnlock])
            (set_FinalData SendQExceeded w)))
  \/ (Closed w = false /\ linesToSend w <> []
      /\ broke (MaxSendQBytes w) (linesToSend w) 0 = false
      /\ selectCase w =
         (CtlAfterSelect,
          flushed (String.concat "" (linesToSend w))
            (set_trace (trace w ++ [EvLock; EvSetLines []; EvUnlock])
               (set_linesToSend [] w)))).
Proof.
  destruct (Closed w) eqn:Hc.
  - left. split; [reflexivity|]. apply selectCase_closed; assumption.
  - right. destruct (linesToSend w) as [|l q] eqn:Hq.
    + left. repeat split. apply selectCase_empty; assumption.
    + right. assert (Hne : linesToSend w <> []) by (rewrite Hq; discriminate).
      rewrite <- Hq.
      destruct (broke (MaxSendQBytes w) (linesToSend w) 0) eqn:Hb.
      * left. repeat split; auto. apply selectCase_breach; assumption.
      * right. repeat split; auto. apply selectCase_drain; assumption.
Qed.

(** ** The mutex in one turn of the writer *)

(** Every way through the select case other than the sendq breach takes
    the mutex once and releases it once, while it is held. *)
Lemma selectCase_mutex_balanced (w : World) :
  (negb (Closed w) && broke (MaxSendQBytes w) (linesToSend w) 0) = false ->
  exists delta,
    trace (snd (selectCase w)) = trace w ++ delta
    /\ mutex_replay false delta = Some false
    /\ count is_lock delta = 1%nat
    /\ count is_unlock delta = 1%nat.
Proof.
  intros Hnb.
  destruct (selectCase_cases w)
    as [[Hc E]|[[Hc [Hq E]]|[[Hc [Hq [Hb E]]]|[Hc [Hq [Hb E]]]]]]; rewrite E.
  - exists [EvLock; EvUnlock]. repeat split.
  - exists [EvLock; EvUnlock]. repeat split.
  - rewrite Hc, Hb in Hnb. discriminate.
  - cbn [snd]. rewrite flushed_trace. go_simpl. rewrite <- app_assoc.
    eexists. split; [reflexivity|].
    destruct (0 <? len (String.concat "" (linesToSend w)));
      [destruct (writeResults (conn w)) as [|[e|] rest]|]; repeat split.
Qed.

(** C2, at the socket [breachSocket] (limit 4, ["PING\r\n"] queued):
    the turn of the writer calls [Lock] once and [Unlock] twice, at
    line 167 inside the range loop and again at line 173, and the second
    call finds the mutex not held. *)
Theorem sendq_breach_unlocks_twice :
  Closed breachSocket = false
  /\ MaxSendQBytes breachSocket = 4
  /\ linesToSend breachSocket = ["PING" ++ CRLF]%string
  /\ trace (snd (selectCase breachSocket))
     = trace breachSocket ++ [EvLock; EvUnlock; EvUnlock]
  /\ count is_lock [EvLock; EvUnlock; EvUnlock] = 1%nat
  /\ count is_unlock [EvLock; EvUnlock; EvUnlock] = 2%nat
  /\ mutex_replay false [EvLock; EvUnlock] = Some false
  /\ mutex_replay false [EvLock; EvUnlock; EvUnlock] = None.
Proof.
  repeat split.
Qed.

(** ** The sendq breach *)

(** On a breach the select case sets [FinalData] and writes nothing, and
    the test of line 193 then finds neither [errOut] nor [Closed]: the
    [for] loop is not left. *)
Lemma loopBody_breach (w : World) :
  Closed w = false -> errOut w = false -> linesToSend w <> [] ->
  broke (MaxSendQBytes w) (linesToSend w) 0 = true ->
  loopBody w =
  (false,
   set_trace (trace w ++ [EvLock; EvUnlock; EvUnlock])
     (set_FinalData SendQExceeded w)).
Proof.
  intros Hc He Hq Hb. unfold loopBody. go_simpl.
  rewrite (selectCase_breach w Hc Hq Hb). go_simpl.
  rewrite Hc, He. reflexivity.
Qed.

Lemma writerTurn_breached (w : World) :
  breached w ->
  fst (writerTurn w) <> Returned
  /\ breached (snd (writerTurn w))
  /\ count is_connClose (trace (snd (writerTurn w)))
     = count is_connClose (trace w)
  /\ count is_connWrite (trace (snd (writerTurn w)))
     = count is_connWrite (trace w).
Proof.
  intros (Hc & He & Hq & Hb). unfold writerTurn, recv. go_simpl.
  destruct (wakers w) as [|d rest] eqn:Hw; go_simpl.
  - repeat split; try assumption. discriminate.
  - match goal with
    | |- context [loopBody ?x] =>
        rewrite (loopBody_breach x) by assumption
    end.
    go_simpl. rewrite !count_app. cbn.
    repeat split; try assumption; try lia. discriminate.
Qed.

Lemma writerLoop_breached (fuel : nat) :
  forall w, breached w ->
    fst (writerLoop fuel w) <> Returned
    /\ breached (snd (writerLoop fuel w))
    /\ count is_connClose (trace (snd (writerLoop fuel w)))
       = count is_connClose (trace w)
    /\ count is_connWrite (trace (snd (writerLoop fuel w)))
       = count is_connWrite (trace w).
Proof.
  induction fuel as [|fuel IH]; intros w Hb.
  - cbn. repeat split; try apply Hb. discriminate.
  - cbn [writerLoop]. unfold bind.
    destruct (writerTurn_breached w Hb) as (Hst & Hb' & Hcl & Hwr).
    destruct (fst (writerTurn w)) eqn:Est; cbn [ret fst snd].
    + split; [discriminate|]. split; [assumption|]. split; assumption.
    + destruct (IH _ Hb') as (Hs2 & Hb2 & Hc2 & Hw2).
      split; [assumption|]. split; [assumption|]. split; congruence.
    + congruence.
    + split; [discriminate|]. split; [assumption|]. split; assumption.
Qed.

(** C1, at the socket [breachSocket] (limit 4, ["PING\r\n"] queued, one
    goroutine offering the wake): [RunSocketWriter] sets [FinalData] to
    the notice and writes none of the queue, but it does not reach the
    teardown.  After the turn it waits in [select] again with [Closed]
    still false, the notice unwritten and the connection open; and
    however many wakes are offered it never returns. *)
Theorem sendq_breach_not_torn_down :
  exceeds (MaxSendQBytes breachSocket) (linesToSend breachSocket)
  /\ RunSocketWriter 2 breachSocket =
     (Blocked,
      {| Closed := false; conn := plainConn ""; MaxSendQBytes := 4;
         FinalData := SendQExceeded;
         linesToSend := ["PING" ++ CRLF]%string;
         wakers := []; errOut := false;
         trace := [EvLock; EvSetLines ["PING" ++ CRLF]%string; EvUnlock;
                   EvLock; EvUnlock; EvUnlock] |})
  /\ forall (k fuel : nat),
       let r := RunSocketWriter fuel
                  (set_wakers (repeat 15000 k) breachSocket) in
       fst r <> Returned
       /\ Closed (snd r) = false
       /\ count is_connClose (trace (snd r)) = 0%nat
       /\ count is_connWrite (trace (snd r)) = 0%nat.
Proof.
  split; [|split].
  - exists 1%nat. vm_compute. reflexivity.
  - vm_compute. reflexivity.
  - intros k fuel r. subst r. unfold RunSocketWriter, bind, modify.
    cbn [fst snd].
    match goal with
    | |- context [writerLoop fuel ?x] =>
        assert (Hb : breached x) by (repeat split; discriminate);
        destruct (writerLoop_breached fuel x Hb) as (Hs & Hb' & Hc & Hw)
    end.
    repeat split; try assumption.
    apply Hb'.
Qed.

(** ** Draining the queue *)

Lemma append_empty_r (s : string) : (s ++ "")%string = s.
Proof.
  induction s as [|a s IH]; cbn; [reflexivity|]. rewrite IH. reflexivity.
Qed.

Lemma concat_empty_cons (x : string) (xs : list string) :
  String.concat "" (x :: xs) = (x ++ String.concat "" xs)%string.
Proof.
  destruct xs as [|y ys]; cbn.
  - symmetry. apply append_empty_r.
  - reflexivity.
Qed.

(** [strings.Join(elems, "")] is the elements one after the other. *)
Lemma concat_empty_fold (l : list string) :
  String.concat "" l = fold_right String.append "" l.
Proof.
  induction l as [|x xs IH]; [reflexivity|].
  rewrite concat_empty_cons, IH. reflexivity.
Qed.

Lemma len_String (a : ascii) (s : string) : (0 <? len (String a s)) = true.
Proof. apply Z.ltb_lt. unfold len. cbn [String.length]. lia. Qed.

Lemma writes_open (ds : list string) :
  forall w, Closed w = false ->
    Closed (writes ds w) = false
    /\ linesToSend (writes ds w) = linesToSend w ++ ds
    /\ MaxSendQBytes (writes ds w) = MaxSendQBytes w
    /\ conn (writes ds w) = conn w.
Proof.
  induction ds as [|d ds IH]; intros w Hc; cbn [writes fold_left].
  - rewrite app_nil_r. repeat split; assumption.
  - fold (writes ds (snd (Write d w))).
    rewrite (Write_open d w Hc). cbn [snd].
    match goal with |- context [writes ds ?x] =>
      destruct (IH x Hc) as (H1 & H2 & H3 & H4) end.
    rewrite H1, H2, H3, H4. go_simpl. rewrite <- app_assoc.
    repeat split.
Qed.

(** The claim of C3 as the spec states it fails on [emptyLineSocket]:
    the socket is open and within its limit, and the drain issues no
    write at all. *)
Lemma drain_of_empty_line_issues_no_write :
  Closed emptyLineSocket = false
  /\ linesToSend emptyLineSocket = [""]
  /\ cumulative (linesToSend emptyLineSocket)
     <= MaxSendQBytes emptyLineSocket
  /\ count is_connWrite (trace (snd (selectCase emptyLineSocket)))
     <> 1%nat.
Proof.
  repeat split; vm_compute; discriminate.
Qed.

(** C3, amended: after the calls [Write d1], ..., [Write dn] on an open
    socket the queue is the old queue followed by [d1], ..., [dn]; if its
    total length is within [MaxSendQBytes] and its concatenation is not
    empty, the drain takes the lock, empties the queue, releases the
    lock and then issues one write whose payload is that concatenation,
    the strings one after the other in the order of the calls.  If the
    concatenation is empty, nothing is written. *)
Theorem drain_writes_queue_in_order (w : World) (ds : list string) :
  Closed w = false ->
  0 <= MaxSendQBytes w < 2 ^ 64 ->
  cumulative (linesToSend w ++ ds) <= MaxSendQBytes w ->
  let w1 := writes ds w in
  let data := String.concat "" (linesToSend w ++ ds) in
  let w2 := snd (selectCase w1) in
  linesToSend w1 = linesToSend w ++ ds
  /\ data = fold_right String.append "" (linesToSend w ++ ds)
  /\ linesToSend w2 = []
  /\ match data with
     | String _ _ =>
         trace w2 =
         trace w1 ++
         [EvLock; EvSetLines []; EvUnlock; EvConnWrite data] ++
         match writeResults (conn w) with
         | Some e :: _ => [EvPrintln (Error e)]
         | _ => []
         end
     | EmptyString =>
         exists delta, trace w2 = trace w1 ++ delta
                       /\ count is_connWrite delta = 0%nat
     end.
Proof.
  intros Hc Hmax Hcum w1 data w2.
  destruct (writes_open ds w Hc) as (Hc1 & Hq1 & Hm1 & Hconn1).
  fold w1 in Hc1, Hq1, Hm1, Hconn1.
  split; [assumption|]. split; [apply concat_empty_fold|].
  destruct (linesToSend w1) as [|l q] eqn:Hq.
  - subst w2. rewrite (selectCase_empty w1 Hc1 Hq). cbn [snd].
    subst data. rewrite <- Hq1. go_simpl. split; [assumption|].
    exists [EvLock; EvUnlock]. split; reflexivity.
  - assert (Hne : linesToSend w1 <> []) by (rewrite Hq; discriminate).
    assert (Hb : broke (MaxSendQBytes w1) (linesToSend w1) 0 = false).
    { apply broke_within; rewrite ?Hm1, ?Hq, ?Hq1; lia. }
    subst w2. rewrite (selectCase_drain w1 Hc1 Hne Hb). cbn [snd].
    destruct (flushed_fields (String.concat "" (linesToSend w1))
                (set_trace (trace w1 ++ [EvLock; EvSetLines []; EvUnlock])
                   (set_linesToSend [] w1))) as (_ & Hfq & _).
    split; [rewrite Hfq; reflexivity|].
    rewrite flushed_trace. go_simpl. rewrite Hconn1, Hq, Hq1. fold data.
    destruct data as [|a s] eqn:Hd.
    + exists [EvLock; EvSetLines []; EvUnlock]. cbn.
      rewrite app_nil_r. split; reflexivity.
    + rewrite len_String. rewrite <- app_assoc. reflexivity.
Qed.

Lemma drain_writes_queue_in_order_witness :
  let w := NewSocket (plainConn "") 512 in
  let ds := ["NICK dan" ++ CRLF; "PING" ++ CRLF]%string in
  Closed w = false
  /\ 0 <= MaxSendQBytes w < 2 ^ 64
  /\ cumulative (linesToSend w ++ ds) <= MaxSendQBytes w
  /\ trace (snd (selectCase (writes ds w))) =
     trace (writes ds w) ++
     [EvLock; EvSetLines []; EvUnlock;
      EvConnWrite ("NICK dan" ++ CRLF ++ "PING" ++ CRLF)%string].
Proof.
  intros w ds.
  assert (H1 : Closed w = false) by reflexivity.
  assert (H2 : 0 <= MaxSendQBytes w < 2 ^ 64) by (cbn; lia).
  assert (H3 : cumulative (linesToSend w ++ ds) <= MaxSendQBytes w)
    by (vm_compute; discriminate).
  split; [exact H1|]. split; [exact H2|]. split; [exact H3|].
  pose proof (drain_writes_queue_in_order w ds H1 H2 H3) as H.
  cbv zeta in H. destruct H as (_ & _ & _ & H). exact H.
Defined.

(** ** Read *)

Lemma Read_closed (w : World) :
  Closed w = true -> Read w = (("", Some EOF), w).
Proof.
  intros H. unfold Read. go_simpl. rewrite H. reflexivity.
Qed.

Lemma Read_open (w : World) (bs : list ascii) (err : option error)
      (rest : list incoming) :
  Closed w = false ->
  readUntil LF (unread (conn w)) = (bs, err, rest) ->
  let line := string_of_list_ascii bs in
  let w1 := set_conn {| asTLS := asTLS (conn w); unread := rest;
                        writeResults := writeResults (conn w) |} w in
  Read w =
  (if isEOF err && negb (String.eqb (TrimSpace line) "")
   then (TrimRight line CRLF, None)
   else match err with
        | Some e => ("", Some e)
        | None => (TrimRight line CRLF, None)
        end,
   if isEOF err then snd (Close w1) else w1).
Proof.
  intros Hc Hr line w1. subst w1. unfold Read, ReadBytes, Close. go_simpl.
  rewrite Hc. go_simpl. rewrite Hr. go_simpl. fold line.
  destruct (isEOF err) eqn:E; go_simpl; rewrite ?Hc; go_simpl;
    destruct (negb (String.eqb (TrimSpace line) "")); cbn [andb];
    destruct err; go_simpl; rewrite ?Hc; reflexivity.
Qed.

Lemma dropWhile_split {A : Type} (p : A -> bool) (l : list A) :
  exists pre, l = pre ++ dropWhile p l /\ forallb p pre = true.
Proof.
  induction l as [|x r IH]; cbn [dropWhile].
  - exists []. split; reflexivity.
  - destruct (p x) eqn:E.
    + destruct IH as (pre & H1 & H2). exists (x :: pre). cbn.
      rewrite E, H2, <- H1. split; reflexivity.
    + exists []. split; reflexivity.
Qed.

Lemma dropWhile_head {A : Type} (p : A -> bool) (l : list A) :
  match dropWhile p l with
  | [] => True
  | x :: _ => p x = false
  end.
Proof.
  induction l as [|x r IH]; cbn [dropWhile]; [exact I|].
  destruct (p x) eqn:E; assumption.
Qed.

(** What [strings.TrimRight(line, "\r\n")] returns: the line without
    the carriage returns and line feeds that end it. *)
Lemma TrimRight_CRLF (line : string) :
  endsInCRLF (TrimRight line CRLF) = false
  /\ exists suffix : list ascii,
       list_ascii_of_string line
       = list_ascii_of_string (TrimRight line CRLF) ++ suffix
       /\ forallb (inCutset CRLF) suffix = true.
Proof.
  unfold TrimRight, endsInCRLF.
  rewrite list_ascii_of_string_of_list_ascii, rev_involutive.
  split.
  - pose proof (dropWhile_head (inCutset CRLF)
                  (rev (list_ascii_of_string line))) as H.
    destruct (dropWhile (inCutset CRLF) (rev (list_ascii_of_string line)));
      [reflexivity|assumption].
  - destruct (dropWhile_split (inCutset CRLF)
                (rev (list_ascii_of_string line))) as (pre & H1 & H2).
    exists (rev pre). split.
    + rewrite <- rev_app_distr, <- H1, rev_involutive. reflexivity.
    + rewrite forallb_forall in *. intros x Hx. apply H2.
      apply in_rev. exact Hx.
Qed.

Lemma error_eqb_EOF (e : error) : error_eqb e EOF = true <-> e = EOF.
Proof.
  destruct e; cbn; split; congruence.
Qed.

Lemma isEOF_spec (err : option error) : isEOF err = true <-> err = Some EOF.
Proof.
  destruct err as [e|]; cbn.
  - rewrite error_eqb_EOF. split; congruence.
  - split; discriminate.
Qed.

(** [strings.TrimSpace] on ASCII and on UTF-8 white space. *)
Example TrimSpace_ascii :
  TrimSpace (String.append "  QUIT :bye " CRLF) = "QUIT :bye".
Proof. reflexivity. Qed.

Example TrimSpace_nbsp :
  TrimSpace (String "194" (String "160" (String "227" (String "128"
              (String "128" ""))))) = "".
Proof. reflexivity. Qed.

Example TrimSpace_stray_byte :
  TrimSpace (String "128" " ") = String "128" "".
Proof. reflexivity. Qed.

(** The claim of C5 as the spec states it fails on [blankSocket]: the
    residual at the end of the stream is one space, which is not empty,
    and [Read] returns [io.EOF] and no line. *)
Lemma Read_blank_residual_is_not_returned :
  Closed blankSocket = false
  /\ readUntil LF (unread (conn blankSocket)) = ([" "%char], Some EOF, [])
  /\ fst (Read blankSocket) = ("", Some EOF).
Proof.
  repeat split.
Qed.

(** C5, amended: when [Read] meets the end of the stream with a residual
    that is not white space only, it returns the residual without its
    trailing carriage returns and line feeds, with a nil error, and the
    socket is closed by that call. *)
Theorem Read_residual_at_end_of_stream
        (w : World) (residual : list ascii) (rest : list incoming) :
  Closed w = false ->
  readUntil LF (unread (conn w)) = (residual, Some EOF, rest) ->
  TrimSpace (string_of_list_ascii residual) <> "" ->
  fst (Read w) = (TrimRight (string_of_list_ascii residual) CRLF, None)
  /\ endsInCRLF (TrimRight (string_of_list_ascii residual) CRLF) = false
  /\ Closed (snd (Read w)) = true.
Proof.
  intros Hc Hr Hne.
  rewrite (Read_open w residual (Some EOF) rest Hc Hr). cbn [fst snd isEOF].
  cbn [error_eqb andb].
  destruct (String.eqb_spec (TrimSpace (string_of_list_ascii residual)) "")
    as [E|E]; [contradiction|]. cbn [negb].
  split; [reflexivity|]. split; [apply TrimRight_CRLF|].
  apply Close_sets_Closed.
Qed.

Lemma Read_residual_at_end_of_stream_witness :
  Closed quitSocket = false
  /\ readUntil LF (unread (conn quitSocket))
     = (bytes (String.append "QUIT :bye" (String "013" "")), Some EOF, [])
  /\ fst (Read quitSocket) = ("QUIT :bye", None)
  /\ Closed (snd (Read quitSocket)) = true.
Proof.
  assert (H1 : Closed quitSocket = false) by reflexivity.
  assert (H2 : readUntil LF (unread (conn quitSocket))
               = (bytes (String.append "QUIT :bye" (String "013" "")),
                  Some EOF, [])) by reflexivity.
  assert (H3 : TrimSpace (string_of_list_ascii
                 (bytes (String.append "QUIT :bye" (String "013" "")))) <> "")
    by (vm_compute; discriminate).
  destruct (Read_residual_at_end_of_stream quitSocket _ _ H1 H2 H3)
    as (R1 & _ & R2).
  split; [exact H1|]. split; [exact H2|]. split; [exact R1|exact R2].
Defined.

(** The claim of C6 as the spec states it fails: after the first [Read]
    on [pingSocket], which returns ["PING"], the socket is not closed. *)
Lemma Read_PING_leaves_socket_open :
  fst (Read pingSocket) = ("PING", None)
  /\ Closed (snd (Read pingSocket)) <> true.
Proof.
  split; [reflexivity|]. vm_compute. discriminate.
Qed.

(** C6, amended: on a stream that holds ["PING\n"] and then ends, the
    first [Read] returns ["PING"] with a nil error and leaves the socket
    open; the second [Read] returns [io.EOF] and it is that call which
    closes the socket; a third [Read] returns [io.EOF] again. *)
Theorem Read_PING_then_EOF :
  let w1 := snd (Read pingSocket) in
  let w2 := snd (Read w1) in
  unread (conn pingSocket) = map Byte (bytes "PING") ++ [Byte LF]
  /\ fst (Read pingSocket) = ("PING", None)
  /\ Closed w1 = false
  /\ fst (Read w1) = ("", Some EOF)
  /\ Closed w2 = true
  /\ fst (Read w2) = ("", Some EOF).
Proof.
  repeat split.
Qed.

(** C10: when the read of the stream fails with an error other than
    [io.EOF], [Read] returns that error and an empty line and the socket
    stays open; when the read succeeds, [Read] returns the line without
    the carriage returns and line feeds that end it, and a nil error. *)
Theorem Read_error_or_stripped_line
        (w : World) (lineBytes : list ascii) (err : option error)
        (rest : list incoming) :
  Closed w = false ->
  readUntil LF (unread (conn w)) = (lineBytes, err, rest) ->
  err <> Some EOF ->
  let line := string_of_list_ascii lineBytes in
  Closed (snd (Read w)) = false
  /\ match err with
     | Some e => fst (Read w) = ("", Some e)
     | None =>
         fst (Read w) = (TrimRight line CRLF, None)
         /\ endsInCRLF (TrimRight line CRLF) = false
         /\ exists suffix : list ascii,
              lineBytes = list_ascii_of_string (TrimRight line CRLF) ++ suffix
              /\ forallb (inCutset CRLF) suffix = true
     end.
Proof.
  intros Hc Hr Hne line.
  assert (E : isEOF err = false).
  { destruct (isEOF err) eqn:E; [|reflexivity].
    apply isEOF_spec in E. contradiction. }
  rewrite (Read_open w lineBytes err rest Hc Hr). rewrite E. cbn [andb fst snd].
  split; [exact Hc|].
  destruct err as [e|]; [reflexivity|].
  split; [reflexivity|].
  destruct (TrimRight_CRLF line) as (H1 & suffix & H2 & H3).
  split; [exact H1|]. exists suffix. split; [|exact H3].
  rewrite <- H2. subst line. symmetry.
  apply list_ascii_of_string_of_list_ascii.
Qed.

Lemma Read_error_or_stripped_line_witness :
  (Closed lineSocket = false
   /\ fst (Read lineSocket) = ("PING", None)
   /\ Closed (snd (Read lineSocket)) = false)
  /\ (Closed resetSocket = false
      /\ fst (Read resetSocket) = ("", Some (ErrOther "connection reset by peer"))
      /\ Closed (snd (Read resetSocket)) = false).
Proof.
  split.
  - assert (H1 : Closed lineSocket = false) by reflexivity.
    assert (H2 : readUntil LF (unread (conn lineSocket))
                 = (bytes (String.append "PING" CRLF), None,
                    map Byte (bytes "NICK"))) by reflexivity.
    assert (H3 : @None error <> Some EOF) by discriminate.
    destruct (Read_error_or_stripped_line lineSocket _ _ _ H1 H2 H3)
      as (R1 & R2 & _).
    split; [exact H1|]. split; [exact R2|exact R1].
  - assert (H1 : Closed resetSocket = false) by reflexivity.
    assert (H2 : readUntil LF (unread (conn resetSocket))
                 = (bytes "PRIV", Some (ErrOther "connection reset by peer"),
                    [])) by reflexivity.
    assert (H3 : Some (ErrOther "connection reset by peer") <> Some EOF)
      by discriminate.
    destruct (Read_error_or_stripped_line resetSocket _ _ _ H1 H2 H3)
      as (R1 & R2).
    split; [exact H1|]. split; [exact R2|exact R1].
Defined.

(** ** CertFP *)

(** The derived constants are those printed in FIPS 180-4. *)
Example SHA256_constants :
  hd 0 SHA256.K = 0x428a2f98 /\ last SHA256.K 0 = 0xc67178f2
  /\ List.length SHA256.K = 64%nat
  /\ SHA256.init = (0x6a09e667, 0xbb67ae85, 0x3c6ef372, 0xa54ff53a,
                    0x510e527f, 0x9b05688c, 0x1f83d9ab, 0x5be0cd19).
Proof. vm_compute. repeat split. Qed.

Example Sum256_empty :
  EncodeToString (Sum256 []) =
  "e3b0c44298fc1c149afbf4c8996fb92427ae41e4649b934ca495991b7852b855".
Proof. vm_compute. reflexivity. Qed.

Example Sum256_abc :
  EncodeToString (Sum256 (bytes "abc")) =
  "ba7816bf8f01cfea414140de5dae2223b00361a396177a9cb410ff61f20015ad".
Proof. vm_compute. reflexivity. Qed.

Example Sum256_two_blocks :
  EncodeToString
    (Sum256 (bytes "abcdbcdecdefdefgefghfghighijhijkijkljklmklmnlmnomnopnopq")) =
  "248d6a61d20638b8e5c026930c3e6039a33ce45964ff2167f6ecedd419db06c1".
Proof. vm_compute. reflexivity. Qed.

(** The digest is an array of 32 bytes, whatever the message. *)
Lemma Sum256_length (data : list ascii) : List.length (Sum256 data) = 32%nat.
Proof.
  unfold Sum256, SHA256.hash. rewrite length_map.
  match goal with
  | |- context [SHA256.blocks ?n ?s ?p] =>
      destruct (SHA256.blocks n s p) as [[[[[[[a b] c] d] e] f] g] h]
  end.
  reflexivity.
Qed.

Lemma EncodeToString_length (src : list ascii) :
  String.length (EncodeToString src) = (2 * List.length src)%nat.
Proof.
  induction src as [|v rest IH]; cbn [EncodeToString String.length List.length].
  - reflexivity.
  - rewrite IH. lia.
Qed.

Lemma hexdigit_high (v : ascii) :
  isLowerHex (hexdigit (N.shiftr (code v) 4)) = true.
Proof.
  destruct v as [[] [] [] [] [] [] [] []]; reflexivity.
Qed.

Lemma hexdigit_low (v : ascii) :
  isLowerHex (hexdigit (N.land (code v) 15)) = true.
Proof.
  destruct v as [[] [] [] [] [] [] [] []]; reflexivity.
Qed.

Lemma EncodeToString_lowerhex (src : list ascii) :
  forallb isLowerHex (list_ascii_of_string (EncodeToString src)) = true.
Proof.
  induction src as [|v rest IH];
    cbn [EncodeToString list_ascii_of_string forallb].
  - reflexivity.
  - rewrite hexdigit_high, hexdigit_low, IH. reflexivity.
Qed.

(** C7: [CertFP] returns [errNotTLS] and an empty string on a connection
    that is not TLS; the error of the handshake if it fails; and
    [errNoPeerCerts] if the peer presented no certificate.  Otherwise it
    returns, with a nil error, the hexadecimal form of the SHA-256
    digest of the raw bytes of the first certificate: 64 characters, all
    of them among [0-9a-f]. *)
Theorem CertFP_fingerprint (w : World) :
  match asTLS (conn w) with
  | None => fst (CertFP w) = ("", Some errNotTLS)
  | Some tlsConn =>
      match handshakeResult tlsConn with
      | Some e => fst (CertFP w) = ("", Some e)
      | None =>
          match PeerCertificates tlsConn with
          | [] => fst (CertFP w) = ("", Some errNoPeerCerts)
          | leaf :: _ =>
              let fingerprint := EncodeToString (Sum256 (Raw leaf)) in
              fst (CertFP w) = (fingerprint, None)
              /\ String.length fingerprint = 64%nat
              /\ forallb isLowerHex (list_ascii_of_string fingerprint) = true
          end
      end
  end.
Proof.
  unfold CertFP. go_simpl.
  destruct (asTLS (conn w)) as [tlsConn|]; go_simpl; [|reflexivity].
  destruct (handshakeResult tlsConn) as [e|]; go_simpl; [reflexivity|].
  destruct (PeerCertificates tlsConn) as [|leaf others]; go_simpl;
    [reflexivity|].
  split; [reflexivity|]. split.
  - rewrite EncodeToString_length, Sum256_length. reflexivity.
  - apply EncodeToString_lowerhex.
Qed.

(** ** The connection is closed once, by the writer *)

Lemma count_nil (p : event -> bool) : count p [] = 0%nat.
Proof. reflexivity. Qed.

Lemma leaves_conn_open_Close : leaves_conn_open Close.
Proof.
  intros w. split; [|split].
  - exists []. rewrite Close_trace, app_nil_r. split; reflexivity.
  - destruct (Closed w) eqn:E;
      [rewrite Close_closed|rewrite Close_open]; auto.
  - intros _. apply Close_sets_Closed.
Qed.

Lemma leaves_conn_open_Write (data : string) : leaves_conn_open (Write data).
Proof.
  intros w. destruct (Closed w) eqn:E.
  - rewrite (Write_closed data w E). cbn [snd]. split; [|split; auto].
    exists []. rewrite app_nil_r. split; reflexivity.
  - rewrite (Write_open data w E). cbn [snd]. split; [|split].
    + eexists. split; [reflexivity|reflexivity].
    + reflexivity.
    + discriminate.
Qed.

Lemma leaves_conn_open_Read : leaves_conn_open Read.
Proof.
  intros w. destruct (Closed w) eqn:E.
  - rewrite (Read_closed w E). cbn [snd]. split; [|split; auto].
    exists []. rewrite app_nil_r. split; reflexivity.
  - destruct (readUntil LF (unread (conn w))) as [[bs err] rest] eqn:Hr.
    rewrite (Read_open w bs err rest E Hr). cbn [snd].
    split; [|split]; [| |discriminate].
    + exists []. rewrite app_nil_r. split; [|reflexivity].
      destruct (isEOF err); [rewrite Close_trace|]; reflexivity.
    + destruct (isEOF err); [|reflexivity].
      match goal with |- context [Close ?x] =>
        destruct (leaves_conn_open_Close x) as (_ & H & _); rewrite H end.
      reflexivity.
Qed.

Lemma leaves_conn_open_CertFP : leaves_conn_open CertFP.
Proof.
  intros w. unfold CertFP. go_simpl.
  destruct (asTLS (conn w)) as [tlsConn|]; go_simpl.
  - assert (Hs : forall (r : string * option error) (x : World),
               snd (r, x) = x) by reflexivity.
    destruct (handshakeResult tlsConn) as [e|]; go_simpl;
      [|destruct (PeerCertificates tlsConn) as [|leaf others]; go_simpl];
      (split; [|split; auto]);
      (eexists; rewrite <- !app_assoc; split; reflexivity).
  - split; [|split; auto]. exists []. rewrite app_nil_r.
    split; reflexivity.
Qed.

Lemma leaves_conn_open_timeout (i : nat) : leaves_conn_open (timeout i).
Proof.
  intros w. unfold timeout. go_simpl. split; [|split; auto].
  exists []. rewrite app_nil_r. split; reflexivity.
Qed.

Lemma teardown_spec (w : World) :
  Closed (snd (teardown w)) = true
  /\ FinalData (snd (teardown w)) = FinalData w
  /\ trace (snd (teardown w))
     = trace w ++ finalWrite (FinalData w) ++ [EvConnClose].
Proof.
  unfold teardown, finalWrite, lenLineToSendExists, connWrite.
  change (Z.to_nat 0) with O. cbn [emptyLineToSendExists].
  destruct (Closed w) eqn:Hc; destruct (0 <? len (FinalData w)) eqn:Hf;
    destruct (writeResults (conn w)) as [|r rest] eqn:Hw;
    repeat (go_simpl; rewrite ?Hc, ?Hf, ?Hw);
    rewrite <- ?app_assoc, ?app_nil_r; repeat split; reflexivity.
Qed.

Lemma loopBody_effect (w : World) :
  Closed (snd (loopBody w)) = Closed w
  /\ wakers (snd (loopBody w)) = wakers w
  /\ exists delta, trace (snd (loopBody w)) = trace w ++ delta
                   /\ count is_connClose delta = 0%nat.
Proof.
  unfold loopBody. go_simpl.
  destruct (selectCase_cases w)
    as [[Hc E]|[[Hc [Hq E]]|[[Hc [Hq [Hb E]]]|[Hc [Hq [Hb E]]]]]];
    rewrite E; go_simpl.
  - repeat split. eexists. split; reflexivity.
  - repeat split. eexists. split; reflexivity.
  - repeat split. eexists. split; reflexivity.
  - match goal with |- context [flushed ?d ?x] =>
      destruct (flushed_fields d x) as (F1 & _ & _ & _ & F5 & _);
      pose proof (flushed_trace d x) as F6 end.
    go_simpl. rewrite F1, F5, F6. repeat split.
    rewrite <- app_assoc. eexists. split; [reflexivity|].
    rewrite count_app.
    destruct (0 <? len (String.concat "" (linesToSend w)));
      [destruct (writeResults (conn w)) as [|[e|] rest]|]; reflexivity.
Qed.

Lemma writerTurn_effect (w : World) :
  match fst (writerTurn w) with
  | Returned =>
      Closed (snd (writerTurn w)) = true
      /\ exists mid,
           trace (snd (writerTurn w)) =
           trace w ++ mid
             ++ finalWrite (FinalData (snd (writerTurn w))) ++ [EvConnClose]
           /\ count is_connClose mid = 0%nat
  | _ =>
      exists delta, trace (snd (writerTurn w)) = trace w ++ delta
                    /\ count is_connClose delta = 0%nat
  end.
Proof.
  unfold writerTurn, recv. go_simpl.
  destruct (wakers w) as [|d rest]; go_simpl.
  - exists []. rewrite app_nil_r. split; reflexivity.
  - match goal with |- context [loopBody ?x] =>
      destruct (loopBody_effect x) as (L1 & _ & delta & L3 & L4);
      destruct (fst (loopBody x)) eqn:El end; go_simpl.
    + match goal with |- context [teardown ?y] =>
        destruct (teardown_spec y) as (T1 & T2 & T3) end.
      split; [exact T1|]. exists delta. rewrite T3, T2, L3. go_simpl.
      rewrite <- !app_assoc. split; [reflexivity|exact L4].
    + exists delta. rewrite L3. go_simpl. split; [reflexivity|exact L4].
Qed.

Lemma count_finalWrite (fd : string) :
  count is_connClose (finalWrite fd) = 0%nat.
Proof.
  unfold finalWrite. destruct (0 <? len fd); reflexivity.
Qed.

Lemma closed_once_start (c : Conn) (maxSendQBytes : Z) :
  closed_once (start c maxSendQBytes).
Proof. reflexivity. Qed.

Lemma closed_once_leaves {A : Type} (m : M A) (s : System) :
  leaves_conn_open m -> closed_once s ->
  closed_once {| world := snd (m (world s)); writer := writer s |}.
Proof.
  intros Hm Hs. destruct (Hm (world s)) as ((delta & Ht & Hd) & Hf & Hc).
  unfold closed_once in *. cbn [world writer].
  destruct (writer s).
  - rewrite Ht, count_app, Hs, Hd. reflexivity.
  - rewrite Ht, count_app, Hs, Hd. reflexivity.
  - destruct Hs as (Hcl & pre & post & Hp & Hpre & Hpost).
    split; [auto|]. exists pre, (post ++ delta).
    rewrite Ht, Hp, Hf, <- !app_assoc. split; [reflexivity|].
    split; [assumption|]. rewrite count_app, Hpost, Hd. reflexivity.
  - rewrite Ht, count_app, Hs, Hd. reflexivity.
Qed.

Lemma closed_once_writer (s : System) :
  closed_once s -> closed_once (step s ActWriter).
Proof.
  intros Hs. cbn [step].
  destruct (writer s) eqn:Ew; try exact Hs;
    unfold closed_once in *; rewrite Ew in Hs; cbn [world writer];
    pose proof (writerTurn_effect (world s)) as Ht;
    destruct (fst (writerTurn (world s)));
    try (destruct Ht as (delta & Ht & Hd);
         rewrite Ht, count_app, Hs, Hd; reflexivity);
    destruct Ht as (Hc & mid & Ht & Hm);
    (split; [exact Hc|]);
    exists (trace (world s) ++ mid), [];
    rewrite Ht, <- !app_assoc, count_app, Hs, Hm; repeat split.
Qed.

Lemma closed_once_step (s : System) (a : action) :
  closed_once s -> closed_once (step s a).
Proof.
  intros Hs. destruct a.
  - apply (closed_once_leaves (Write data)); auto using leaves_conn_open_Write.
  - apply (closed_once_leaves (WriteLine line)); auto.
    unfold WriteLine. apply leaves_conn_open_Write.
  - apply (closed_once_leaves Close); auto using leaves_conn_open_Close.
  - apply (closed_once_leaves Read); auto using leaves_conn_open_Read.
  - apply (closed_once_leaves CertFP); auto using leaves_conn_open_CertFP.
  - apply closed_once_writer; assumption.
  - apply (closed_once_leaves (timeout i)); auto using leaves_conn_open_timeout.
Qed.

Lemma closed_once_run (acts : list action) :
  forall s, closed_once s -> closed_once (run acts s).
Proof.
  induction acts as [|a acts IH]; intros s Hs; cbn [run fold_left].
  - exact Hs.
  - apply IH. apply closed_once_step. exact Hs.
Qed.

Lemma closed_once_count (s : System) :
  closed_once s ->
  count is_connClose (trace (world s))
  = match writer s with Returned => 1%nat | _ => 0%nat end.
Proof.
  unfold closed_once. destruct (writer s); auto.
  intros (_ & pre & post & Hp & Hpre & Hpost).
  rewrite Hp, !count_app, Hpre, Hpost, count_finalWrite. reflexivity.
Qed.

Lemma step_keeps_conn (s : System) (a : action) :
  match a with
  | ActWriter => True
  | _ => count is_connClose (trace (world (step s a)))
         = count is_connClose (trace (world s))
  end.
Proof.
  assert (H : forall (A : Type) (m : M A), leaves_conn_open m ->
            count is_connClose (trace (snd (m (world s))))
            = count is_connClose (trace (world s))).
  { intros A m Hm. destruct (Hm (world s)) as ((delta & Ht & Hd) & _).
    rewrite Ht, count_app, Hd. lia. }
  destruct a; cbn [step world]; try exact I; apply H.
  - apply leaves_conn_open_Write.
  - unfold WriteLine. apply leaves_conn_open_Write.
  - apply leaves_conn_open_Close.
  - apply leaves_conn_open_Read.
  - apply leaves_conn_open_CertFP.
  - apply leaves_conn_open_timeout.
Qed.

(** The writer does return: after [Close], and after a failed write. *)
Example writer_returns_after_Close :
  run [ActWrite "PING"; ActClose; ActWriter] (start (plainConn "") 512) =
  {| world :=
       {| Closed := true; conn := plainConn ""; MaxSendQBytes := 512;
          FinalData := ""; linesToSend := ["PING"];
          wakers := [200]; errOut := false;
          trace := [EvLock; EvSetLines ["PING"]; EvUnlock;
                    EvLock; EvUnlock; EvConnClose] |};
     writer := Returned |}.
Proof. reflexivity. Qed.

Example writer_returns_after_write_error :
  run [ActWrite "PING"; ActWriter] (start brokenConn 512) =
  {| world :=
       {| Closed := true;
          conn := {| asTLS := None; unread := []; writeResults := [] |};
          MaxSendQBytes := 512;
          FinalData := ""; linesToSend := [];
          wakers := []; errOut := true;
          trace := [EvLock; EvSetLines ["PING"]; EvUnlock;
                    EvLock; EvSetLines []; EvUnlock; EvConnWrite "PING";
                    EvPrintln "broken pipe"; EvConnClose] |};
     writer := Returned |}.
Proof. reflexivity. Qed.

(** C9: the teardown of [RunSocketWriter] leaves [Closed] true, writes
    [FinalData] if it is not empty and then closes the connection,
    whatever that write returns.  And under every interleaving of the
    calls of the server with the turns of the writer, the connection has
    not been closed while the writer runs, and once the writer has
    returned the socket is closed and the connection has been closed
    exactly once, right after the write of [FinalData]; no call other
    than a turn of the writer adds a close of the connection. *)
Theorem connection_closed_once_by_writer :
  (forall w : World,
      Closed (snd (teardown w)) = true
      /\ trace (snd (teardown w))
         = trace w ++ finalWrite (FinalData w) ++ [EvConnClose])
  /\ (forall (c : Conn) (maxSendQBytes : Z) (acts : list action),
         let s := run acts (start c maxSendQBytes) in
         closed_once s
         /\ count is_connClose (trace (world s))
            = match writer s with Returned => 1%nat | _ => 0%nat end)
  /\ (forall (s : System) (a : action),
         match a with
         | ActWriter => True
         | _ => count is_connClose (trace (world (step s a)))
                = count is_connClose (trace (world s))
         end).
Proof.
  split; [|split].
  - intros w. destruct (teardown_spec w) as (H1 & _ & H3). split; assumption.
  - intros c maxSendQBytes acts s.
    assert (Hs : closed_once s)
      by (apply closed_once_run, closed_once_start).
    split; [exact Hs|]. apply closed_once_count. exact Hs.
  - apply step_keeps_conn.
Qed.

(** * Further properties of the socket *)

(** ** One turn of the writer, path by path *)

Lemma flushed_errOut (data : string) (w : World) :
  errOut (flushed data w)
  = errOut w || ((0 <? len data) && writeFails w).
Proof.
  unfold flushed, connWrite, writeFails.
  destruct (0 <? len data); [|cbn; rewrite orb_false_r; reflexivity].
  destruct (writeResults (conn w)) as [|[e|] rest]; go_simpl;
    rewrite ?orb_true_r, ?orb_false_r; reflexivity.
Qed.

Lemma loopBody_cases (w : World) :
  (Closed w = true
   /\ loopBody w = (true, set_trace (trace w ++ [EvLock; EvUnlock]) w))
  \/ (Closed w = false /\ linesToSend w = []
      /\ loopBody w = (false, set_trace (trace w ++ [EvLock; EvUnlock]) w))
  \/ (Closed w = false /\ linesToSend w <> []
      /\ broke (MaxSendQBytes w) (linesToSend w) 0 = true
      /\ loopBody w =
         (errOut w,
          set_trace (trace w ++ [EvLock; EvUnlock; EvUnlock])
            (set_FinalData SendQExceeded w)))
  \/ (Closed w = false /\ linesToSend w <> []
      /\ broke (MaxSendQBytes w) (linesToSend w) 0 = false
      /\ loopBody w =
         (errOut w
          || ((0 <? len (String.concat "" (linesToSend w))) && writeFails w),
          flushed (String.concat "" (linesToSend w))
            (set_trace (trace w ++ [EvLock; EvSetLines []; EvUnlock])
               (set_linesToSend [] w)))).
Proof.
  unfold loopBody. go_simpl.
  destruct (selectCase_cases w)
    as [[Hc E]|[[Hc [Hq E]]|[[Hc [Hq [Hb E]]]|[Hc [Hq [Hb E]]]]]];
    rewrite E; go_simpl.
  - left. rewrite Hc, orb_true_r. auto.
  - right; left. auto.
  - right; right; left. rewrite Hc, orb_false_r. auto.
  - right; right; right.
    match goal with |- context [flushed ?d ?x] =>
      destruct (flushed_fields d x) as (F1 & _);
      pose proof (flushed_errOut d x) as F2 end.
    go_simpl. rewrite F1, F2, Hc, orb_false_r. unfold writeFails. go_simpl.
    auto.
Qed.

Lemma teardown_fields (w : World) :
  linesToSend (snd (teardown w)) = linesToSend w
  /\ wakers (snd (teardown w)) = wakers w
  /\ MaxSendQBytes (snd (teardown w)) = MaxSendQBytes w
  /\ errOut (snd (teardown w)) = errOut w.
Proof.
  unfold teardown, lenLineToSendExists, connWrite.
  change (Z.to_nat 0) with O. cbn [emptyLineToSendExists].
  destruct (Closed w) eqn:Hc; destruct (0 <? len (FinalData w)) eqn:Hf;
    destruct (writeResults (conn w)) as [|r rest] eqn:Hw;
    repeat (go_simpl; rewrite ?Hc, ?Hf, ?Hw);
    repeat split; reflexivity.
Qed.

Lemma writerTurn_blocked (w : World) :
  wakers w = [] -> writerTurn w = (Blocked, w).
Proof.
  intros H. unfold writerTurn, recv. go_simpl. rewrite H. reflexivity.
Qed.

Lemma writerTurn_woken (w : World) (d : Z) (rest : list Z) :
  wakers w = d :: rest ->
  writerTurn w =
  if fst (loopBody (set_wakers rest w))
  then (Returned, snd (teardown (snd (loopBody (set_wakers rest w)))))
  else (Looping, snd (loopBody (set_wakers rest w))).
Proof.
  intros H. unfold writerTurn, recv. go_simpl. rewrite H. go_simpl.
  destruct (fst (loopBody _)); reflexivity.
Qed.

(** ** When the writer stops *)



(** X2: after [Close] on an open socket a wake is always on offer, and
    the turn of the writer that takes it tears the socket down: it
    returns, having written [FinalData] if there is any and closed the
    connection, and what was queued is left unsent in the queue. *)
Theorem Close_then_wake_tears_down (w : World) :
  Closed w = false ->
  let r := writerTurn (snd (Close w)) in
  fst r = Returned
  /\ Closed (snd r) = true
  /\ linesToSend (snd r) = linesToSend w
  /\ trace (snd r)
     = trace w ++ [EvLock; EvUnlock] ++ finalWrite (FinalData w)
         ++ [EvConnClose].
Proof.
  intros Hc r. subst r. rewrite (Close_open w Hc). cbn [snd].
  destruct (wakers w ++ [200]) as [|d rest] eqn:Hw.
  { destruct (wakers w); discriminate. }
  match goal with |- context [writerTurn ?x] =>
    rewrite (writerTurn_woken x d rest) by reflexivity;
    set (w1 := set_wakers rest x) end.
  assert (Hc1 : Closed w1 = true) by reflexivity.
  destruct (loopBody_cases w1)
    as [[_ E]|[[Hc' _]|[[Hc' _]|[Hc' _]]]]; try congruence.
  rewrite E. cbn [fst snd].
  match goal with |- context [teardown ?y] =>
    destruct (teardown_spec y) as (T1 & T2 & T3);
    destruct (teardown_fields y) as (T4 & _) end.
  rewrite T3, T4. split; [reflexivity|]. split; [exact T1|].
  split; [reflexivity|]. cbn -[finalWrite app]. rewrite <- app_assoc.
  reflexivity.
Qed.

Lemma Close_then_wake_tears_down_witness :
  let w := writes ["NICK dan"] (NewSocket (plainConn "") 512) in
  Closed w = false
  /\ fst (writerTurn (snd (Close w))) = Returned
  /\ linesToSend (snd (writerTurn (snd (Close w)))) = ["NICK dan"]
  /\ written (trace (snd (writerTurn (snd (Close w))))) = "".
Proof.
  intros w.
  assert (H : Closed w = false) by reflexivity.
  destruct (Close_then_wake_tears_down w H) as (R1 & _ & R3 & R4).
  split; [exact H|]. split; [exact R1|]. split; [exact R3|].
  rewrite R4. reflexivity.
Defined.

(** X3: a failed write ends the writer.  When the drain of an open
    socket within its limit gets an error from [conn.Write], the same
    turn prints the error, sets [Closed], writes [FinalData] if there
    is any and closes the connection; the queue has been emptied
    before, so the payload is not tried again. *)
Theorem write_error_is_terminal
        (w : World) (d : Z) (rest : list Z) (e : error)
        (results : list (option error)) :
  wakers w = d :: rest ->
  Closed w = false ->
  linesToSend w <> [] ->
  broke (MaxSendQBytes w) (linesToSend w) 0 = false ->
  String.concat "" (linesToSend w) <> "" ->
  writeResults (conn w) = Some e :: results ->
  let r := writerTurn w in
  fst r = Returned
  /\ Closed (snd r) = true
  /\ linesToSend (snd r) = []
  /\ trace (snd r)
     = trace w
         ++ [EvLock; EvSetLines []; EvUnlock;
             EvConnWrite (String.concat "" (linesToSend w));
             EvPrintln (Error e)]
         ++ finalWrite (FinalData w) ++ [EvConnClose].
Proof.
  intros Hw Hc Hq Hb Hd Hr r. subst r.
  rewrite (writerTurn_woken w d rest Hw).
  set (w1 := set_wakers rest w).
  assert (Hlen : (0 <? len (String.concat "" (linesToSend w))) = true).
  { destruct (String.concat "" (linesToSend w)); [congruence|].
    apply len_String. }
  assert (Hf : writeFails w1 = true) by (unfold writeFails; cbn; rewrite Hr; reflexivity).
  destruct (loopBody_cases w1)
    as [[Hc' _]|[[_ [Hq' _]]|[[_ [_ [Hb' _]]]|[_ [_ [_ E]]]]]];
    try (subst w1; cbn in *; congruence).
  rewrite E. cbn [fst snd].
  change (linesToSend w1) with (linesToSend w). rewrite Hlen, Hf.
  rewrite orb_true_r. cbn [fst snd].
  match goal with |- context [teardown ?y] =>
    destruct (teardown_spec y) as (T1 & T2 & T3);
    destruct (teardown_fields y) as (T4 & _);
    rewrite T3, T4 end.
  match goal with |- context [flushed ?dd ?x] =>
    destruct (flushed_fields dd x) as (_ & F2 & F3 & _);
    pose proof (flushed_trace dd x) as F4 end.
  rewrite F2, F3, F4. cbn [linesToSend FinalData set_trace set_linesToSend
                           trace conn].
  rewrite Hlen. change (conn w1) with (conn w). rewrite Hr.
  split; [reflexivity|]. split; [exact T1|]. split; [reflexivity|].
  rewrite <- !app_assoc. reflexivity.
Qed.

Lemma write_error_is_terminal_witness :
  let w := writes ["PING"] (NewSocket brokenConn 512) in
  wakers w = [15000]
  /\ Closed w = false
  /\ fst (writerTurn w) = Returned
  /\ linesToSend (snd (writerTurn w)) = []
  /\ Closed (snd (writerTurn w)) = true.
Proof.
  intros w.
  assert (H1 : wakers w = [15000]) by reflexivity.
  assert (H2 : Closed w = false) by reflexivity.
  assert (H3 : linesToSend w <> []) by discriminate.
  assert (H4 : broke (MaxSendQBytes w) (linesToSend w) 0 = false)
    by reflexivity.
  assert (H5 : String.concat "" (linesToSend w) <> "") by discriminate.
  assert (H6 : writeResults (conn w) = [Some (ErrOther "broken pipe")])
    by reflexivity.
  destruct (write_error_is_terminal w 15000 [] _ [] H1 H2 H3 H4 H5 H6)
    as (R1 & R2 & R3 & _).
  split; [exact H1|]. split; [exact H2|]. split; [exact R1|].
  split; [exact R3|exact R2].
Defined.

(** ** The sendq test *)

Lemma cumulative_firstn_le (n : nat) (lines : list string) :
  cumulative (firstn n lines) <= cumulative lines.
Proof.
  revert n. induction lines as [|l r IH]; intros [|n];
    cbn [firstn cumulative]; try lia.
  - pose proof (len_nonneg l). pose proof (cumulative_nonneg r). lia.
  - specialize (IH n). lia.
Qed.

(** X4: the loop over the queue, which counts in [uint64] and stops
    at the first prefix over the limit, decides what the limit means:
    as long as the total fits in 64 bits, the turn takes the breach
    path when some prefix of the queue is longer than [MaxSendQBytes],
    and drains the queue when the total is at most [MaxSendQBytes], a
    total equal to the limit included. *)
Theorem sendq_test_is_prefix_test (w : World) :
  Closed w = false ->
  linesToSend w <> [] ->
  0 <= MaxSendQBytes w ->
  cumulative (linesToSend w) < 2 ^ 64 ->
  (exceeds (MaxSendQBytes w) (linesToSend w) ->
   snd (selectCase w)
   = set_trace (trace w ++ [EvLock; EvUnlock; EvUnlock])
       (set_FinalData SendQExceeded w))
  /\ (cumulative (linesToSend w) <= MaxSendQBytes w ->
      snd (selectCase w)
      = flushed (String.concat "" (linesToSend w))
          (set_trace (trace w ++ [EvLock; EvSetLines []; EvUnlock])
             (set_linesToSend [] w))).
Proof.
  intros Hc Hq Hmax Hfit.
  assert (Hbe : broke (MaxSendQBytes w) (linesToSend w) 0 = true <->
                exists n : nat,
                  MaxSendQBytes w < 0 + cumulative (firstn n (linesToSend w)))
    by (apply broke_exceeds; lia).
  split.
  - intros Hex.
    rewrite (selectCase_breach w Hc Hq); [reflexivity|].
    apply Hbe. destruct Hex as [n Hn]. exists n. lia.
  - intros Hle.
    rewrite (selectCase_drain w Hc Hq); [reflexivity|].
    destruct (broke (MaxSendQBytes w) (linesToSend w) 0); [|reflexivity].
    destruct (proj1 Hbe eq_refl) as [n Hn].
    pose proof (cumulative_firstn_le n (linesToSend w)). lia.
Qed.

Lemma sendq_test_is_prefix_test_witness :
  let w := snd (WriteLine "PING" (NewSocket (plainConn "") 6)) in
  cumulative (linesToSend w) = MaxSendQBytes w
  /\ written (trace (snd (selectCase w))) = String.append "PING" CRLF
  /\ FinalData (snd (selectCase w)) = "".
Proof.
  intros w.
  assert (H1 : Closed w = false) by reflexivity.
  assert (H2 : linesToSend w <> []) by discriminate.
  assert (H3 : 0 <= MaxSendQBytes w) by (cbn; lia).
  assert (H4 : cumulative (linesToSend w) < 2 ^ 64) by reflexivity.
  assert (H5 : cumulative (linesToSend w) <= MaxSendQBytes w)
    by (vm_compute; discriminate).
  destruct (sendq_test_is_prefix_test w H1 H2 H3 H4) as (_ & R).
  rewrite (R H5). repeat split.
Defined.

(** ** What holds under every interleaving *)

Lemma writerTurn_FinalData (w : World) :
  FinalData (snd (writerTurn w)) = FinalData w
  \/ FinalData (snd (writerTurn w)) = SendQExceeded.
Proof.
  destruct (wakers w) as [|d rest] eqn:Hw.
  - rewrite (writerTurn_blocked w Hw). left. reflexivity.
  - rewrite (writerTurn_woken w d rest Hw).
    set (w1 := set_wakers rest w).
    assert (HF : forall b x, FinalData (snd (if b : bool
                   then (Returned, snd (teardown x))
                   else (Looping, x))) = FinalData x).
    { intros [] x; cbn [snd]; [|reflexivity].
      destruct (teardown_spec x) as (_ & T & _). exact T. }
    rewrite HF.
    destruct (loopBody_cases w1)
      as [[Hc E]|[[Hc [Hq E]]|[[Hc [Hq [Hb E]]]|[Hc [Hq [Hb E]]]]]];
      rewrite E; cbn [snd].
    + left. reflexivity.
    + left. reflexivity.
    + right. reflexivity.
    + left.
      match goal with |- context [flushed ?dd ?x] =>
        destruct (flushed_fields dd x) as (_ & _ & F & _) end.
      rewrite F. reflexivity.
Qed.

Lemma step_FinalData (s : System) (a : action) :
  FinalData (world (step s a)) = FinalData (world s)
  \/ FinalData (world (step s a)) = SendQExceeded.
Proof.
  destruct a; cbn [step world];
    try (left;
         match goal with |- FinalData (snd (?m _)) = _ =>
           let H := fresh in
           assert (H : leaves_conn_open m)
             by first [ apply leaves_conn_open_Write
                      | unfold WriteLine; apply leaves_conn_open_Write
                      | apply leaves_conn_open_Close
                      | apply leaves_conn_open_Read
                      | apply leaves_conn_open_CertFP
                      | apply leaves_conn_open_timeout ];
           apply H
         end).
  destruct (writer s); cbn [world]; try apply writerTurn_FinalData.
  left. reflexivity.
Qed.

(** X5: under every interleaving of calls and turns of the writer,
    [FinalData] is either empty, as [NewSocket] leaves it, or the sendq
    notice: nothing else is ever sent as the last words of a socket. *)
Theorem FinalData_is_empty_or_notice
        (c : Conn) (maxSendQBytes : Z) (acts : list action) :
  emptyOrNotice (FinalData (world (run acts (start c maxSendQBytes)))).
Proof.
  assert (H : forall s, emptyOrNotice (FinalData (world s)) ->
                        emptyOrNotice (FinalData (world (run acts s)))).
  { induction acts as [|a acts IH]; intros s Hs; cbn [run fold_left].
    - exact Hs.
    - apply IH. destruct (step_FinalData s a) as [E|E]; rewrite E.
      + exact Hs.
      + right. reflexivity. }
  apply H. left. reflexivity.
Qed.

Lemma append_assoc (a b c : string) :
  String.append (String.append a b) c = String.append a (String.append b c).
Proof.
  induction a as [|x a IH]; cbn; [reflexivity|]. rewrite IH. reflexivity.
Qed.

Lemma written_app (t1 t2 : list event) :
  written (t1 ++ t2) = String.append (written t1) (written t2).
Proof.
  induction t1 as [|e t1 IH]; cbn [app written]; [reflexivity|].
  destruct e; rewrite ?IH, ?append_assoc; reflexivity.
Qed.

Lemma written_finalWrite (fd : string) : written (finalWrite fd) = fd.
Proof.
  unfold finalWrite. destruct fd as [|a fd].
  - reflexivity.
  - rewrite len_String. cbn [written]. apply append_empty_r.
Qed.

Lemma CertFP_world (w : World) :
  snd (CertFP w) = set_trace (trace w ++ certFPCalls w) w.
Proof.
  unfold CertFP, certFPCalls. go_simpl.
  destruct (asTLS (conn w)) as [tlsConn|]; go_simpl.
  - destruct (handshakeResult tlsConn) as [e|]; go_simpl;
      [|destruct (PeerCertificates tlsConn) as [|leaf others]; go_simpl];
      rewrite <- !app_assoc; reflexivity.
  - rewrite app_nil_r. destruct w; reflexivity.
Qed.

Lemma written_certFPCalls (w : World) : written (certFPCalls w) = "".
Proof.
  unfold certFPCalls. destruct (asTLS (conn w)); reflexivity.
Qed.

Lemma Read_fields (w : World) :
  trace (snd (Read w)) = trace w
  /\ linesToSend (snd (Read w)) = linesToSend w
  /\ FinalData (snd (Read w)) = FinalData w
  /\ MaxSendQBytes (snd (Read w)) = MaxSendQBytes w
  /\ errOut (snd (Read w)) = errOut w.
Proof.
  destruct (Closed w) eqn:Hc.
  - rewrite (Read_closed w Hc). repeat split.
  - destruct (readUntil LF (unread (conn w))) as [[bs err] rest] eqn:Hr.
    rewrite (Read_open w bs err rest Hc Hr). cbn [snd].
    destruct (isEOF err); [|repeat split].
    rewrite Close_open by exact Hc. repeat split.
Qed.

Lemma step_Returned (s : System) (a : action) :
  writer s = Returned -> writer (step s a) = Returned.
Proof.
  intros H. destruct a; cbn [step writer]; try exact H.
  rewrite H. exact H.
Qed.

Lemma run_Returned (acts : list action) :
  forall s, writer s = Returned -> writer (run acts s) = Returned.
Proof.
  induction acts as [|a acts IH]; intros s H; cbn [run fold_left];
    [exact H|]. apply IH, step_Returned, H.
Qed.

(** A step from a closed socket: the queue and [FinalData] stay, and
    the only bytes that can still reach the connection are [FinalData],
    in the turn in which the writer returns. *)
Lemma closed_step (s : System) (a : action) :
  Closed (world s) = true ->
  Closed (world (step s a)) = true
  /\ linesToSend (world (step s a)) = linesToSend (world s)
  /\ FinalData (world (step s a)) = FinalData (world s)
  /\ exists delta,
       trace (world (step s a)) = trace (world s) ++ delta
       /\ (written delta = ""
           \/ (written delta = FinalData (world s)
               /\ writer s <> Returned
               /\ writer (step s a) = Returned)).
Proof.
  intros Hc.
  assert (Hsame : forall w', w' = world s ->
            Closed w' = true
            /\ linesToSend w' = linesToSend (world s)
            /\ FinalData w' = FinalData (world s)
            /\ exists delta,
                 trace w' = trace (world s) ++ delta
                 /\ (written delta = ""
                     \/ (written delta = FinalData (world s)
                         /\ writer s <> Returned
                         /\ writer (step s a) = Returned))).
  { intros w' ->. split; [exact Hc|]. split; [reflexivity|].
    split; [reflexivity|]. exists [].
    rewrite app_nil_r. split; [reflexivity|left; reflexivity]. }
  destruct a; cbn [step world].
  - apply Hsame. rewrite (Write_closed _ _ Hc). reflexivity.
  - apply Hsame. unfold WriteLine. rewrite (Write_closed _ _ Hc).
    reflexivity.
  - apply Hsame. rewrite (Close_closed _ Hc). reflexivity.
  - apply Hsame. rewrite (Read_closed _ Hc). reflexivity.
  - rewrite CertFP_world. cbn. split; [exact Hc|]. split; [reflexivity|].
    split; [reflexivity|].
    exists (certFPCalls (world s)). split; [reflexivity|].
    left. apply written_certFPCalls.
  - destruct (writer s) eqn:Ew; cbn [world writer];
      try (split; [exact Hc|]; split; [reflexivity|];
           split; [reflexivity|]; exists []; rewrite app_nil_r;
           split; [reflexivity|left; reflexivity]; fail);
      (destruct (wakers (world s)) as [|d rest] eqn:Hw;
       [ rewrite (writerTurn_blocked _ Hw); cbn [snd];
         (split; [exact Hc|]); (split; [reflexivity|]);
         (split; [reflexivity|]); exists []; rewrite app_nil_r;
         split; [reflexivity|left; reflexivity]
       | rewrite (writerTurn_woken _ d rest Hw);
         destruct (loopBody_cases (set_wakers rest (world s)))
           as [[_ E]|[[Hc' _]|[[Hc' _]|[Hc' _]]]];
         try (cbn in Hc'; congruence);
         rewrite E; cbn [fst snd];
         match goal with |- context [teardown ?y] =>
           destruct (teardown_spec y) as (T1 & T2 & T3);
           destruct (teardown_fields y) as (T4 & _)
         end;
         rewrite T2, T3, T4; (split; [exact T1|]);
         (split; [reflexivity|]); (split; [reflexivity|]);
         eexists; cbn -[finalWrite app]; rewrite <- app_assoc;
         (split; [reflexivity|]); right;
         rewrite !written_app, written_finalWrite; cbn;
         rewrite append_empty_r;
         (split; [reflexivity|]); split; [discriminate|reflexivity] ]).
  - unfold timeout. go_simpl. split; [exact Hc|]. split; [reflexivity|].
    split; [reflexivity|]. exists [].
    rewrite app_nil_r. split; [reflexivity|left; reflexivity].
Qed.

(** X6: a closed socket stays closed and its queue is frozen.  From a
    state in which [Closed] is true, whatever calls and turns of the
    writer follow, [Closed] stays true, [linesToSend] is never changed
    (no [Write] appends, no drain removes), and the only bytes that
    may still reach the connection are those of [FinalData]: lines
    that were queued when the socket was closed are never sent. *)
Theorem closed_socket_is_final (acts : list action) (s : System) :
  Closed (world s) = true ->
  Closed (world (run acts s)) = true
  /\ linesToSend (world (run acts s)) = linesToSend (world s)
  /\ exists delta,
       trace (world (run acts s)) = trace (world s) ++ delta
       /\ (written delta = "" \/ written delta = FinalData (world s)).
Proof.
  intros Hc.
  assert (H : forall acts s, Closed (world s) = true ->
    Closed (world (run acts s)) = true
    /\ linesToSend (world (run acts s)) = linesToSend (world s)
    /\ exists delta,
         trace (world (run acts s)) = trace (world s) ++ delta
         /\ (written delta = ""
             \/ (written delta = FinalData (world s)
                 /\ writer s <> Returned
                 /\ writer (run acts s) = Returned))).
  { clear. induction acts as [|a acts IH]; intros s Hc; cbn [run fold_left].
    - split; [exact Hc|]. split; [reflexivity|]. exists [].
      rewrite app_nil_r. split; [reflexivity|left; reflexivity].
    - destruct (closed_step s a Hc) as (C1 & Q1 & F1 & d1 & T1 & W1).
      destruct (IH (step s a) C1) as (C2 & Q2 & d2 & T2 & W2).
      fold (run acts (step s a)) in *.
      split; [exact C2|]. split; [congruence|].
      exists (d1 ++ d2). split; [rewrite T2, T1, app_assoc; reflexivity|].
      rewrite written_app.
      destruct W1 as [W1|(W1 & N1 & R1)]; rewrite W1.
      + destruct W2 as [W2|(W2 & N2 & R2)]; rewrite W2.
        * left. reflexivity.
        * right. cbn. split; [congruence|]. split; [|exact R2].
          intros Hr. apply N2. apply step_Returned. exact Hr.
      + destruct W2 as [W2|(W2 & N2 & R2)]; [|congruence].
        rewrite W2, append_empty_r. right. split; [reflexivity|].
        split; [exact N1|]. apply run_Returned. exact R1. }
  destruct (H acts s Hc) as (C & Q & delta & T & W).
  split; [exact C|]. split; [exact Q|]. exists delta. split; [exact T|].
  destruct W as [W|(W & _)]; auto.
Qed.

Lemma closed_socket_is_final_witness :
  let s := run [ActWrite "NICK dan"; ActClose] (start (plainConn "") 512) in
  let acts := [ActWrite "PING"; ActWriter; ActWriteLine "x"; ActWriter] in
  Closed (world s) = true
  /\ linesToSend (world (run acts s)) = ["NICK dan"]
  /\ written (trace (world (run acts s))) = "".
Proof.
  intros s acts.
  assert (H : Closed (world s) = true) by reflexivity.
  destruct (closed_socket_is_final acts s H) as (_ & Q & _).
  split; [exact H|]. split; [exact Q|]. reflexivity.
Defined.

Lemma concat_empty_app (l1 l2 : list string) :
  String.concat "" (l1 ++ l2)
  = String.append (String.concat "" l1) (String.concat "" l2).
Proof.
  induction l1 as [|x l1 IH]; [reflexivity|].
  cbn [app]. rewrite !concat_empty_cons, IH, append_assoc. reflexivity.
Qed.

Lemma written_flushed (data : string) (w : World) :
  written (trace (flushed data w)) = String.append (written (trace w)) data.
Proof.
  rewrite flushed_trace, written_app.
  destruct data as [|a data].
  - reflexivity.
  - rewrite len_String. cbn [written].
    destruct (writeResults (conn w)) as [|[e|] rest]; cbn [written];
      rewrite append_empty_r; reflexivity.
Qed.

(** The bytes written so far followed by the bytes still queued. *)
Lemma conserve_step (s : System) (a : action) :
  writer (step s a) <> Returned ->
  String.append (written (trace (world (step s a))))
                (String.concat "" (linesToSend (world (step s a))))
  = String.append
      (String.append (written (trace (world s)))
                     (String.concat "" (linesToSend (world s))))
      (queued a s).
Proof.
  intros Hr.
  assert (Hsame : forall w',
            written (trace w') = written (trace (world s)) ->
            linesToSend w' = linesToSend (world s) ->
            String.append (written (trace w'))
                          (String.concat "" (linesToSend w'))
            = String.append
                (String.append (written (trace (world s)))
                               (String.concat "" (linesToSend (world s))))
                "").
  { intros w' -> ->. rewrite append_empty_r. reflexivity. }
  assert (Hwr : forall data,
            String.append
              (written (trace (snd (Write data (world s)))))
              (String.concat "" (linesToSend (snd (Write data (world s)))))
            = String.append
                (String.append (written (trace (world s)))
                               (String.concat "" (linesToSend (world s))))
                (if Closed (world s) then "" else data)).
  { intros data. destruct (Closed (world s)) eqn:Hc.
    - rewrite (Write_closed _ _ Hc). apply Hsame; reflexivity.
    - rewrite (Write_open _ _ Hc). cbn [snd]. go_simpl.
      rewrite written_app, concat_empty_app. cbn [written].
      rewrite append_empty_r, append_assoc. cbn [String.concat].
      reflexivity. }
  destruct a; cbn [step world queued] in *.
  - apply Hwr.
  - unfold WriteLine. apply Hwr.
  - apply Hsame; [rewrite Close_trace; reflexivity|].
    destruct (Closed (world s)) eqn:Hc;
      [rewrite Close_closed|rewrite Close_open]; auto.
  - destruct (Read_fields (world s)) as (R1 & R2 & _).
    apply Hsame; [rewrite R1; reflexivity|exact R2].
  - rewrite CertFP_world. cbn. rewrite written_app, written_certFPCalls.
    rewrite !append_empty_r. reflexivity.
  - destruct (writer s) eqn:Ew; cbn [world writer] in *;
      try congruence;
      (destruct (wakers (world s)) as [|d rest] eqn:Hw;
       [ rewrite (writerTurn_blocked _ Hw); apply Hsame; reflexivity
       | rewrite (writerTurn_woken _ d rest Hw) in *;
         destruct (loopBody_cases (set_wakers rest (world s)))
           as [[Hc E]|[[Hc [Hq E]]|[[Hc [Hq [Hb E]]]|[Hc [Hq [Hb E]]]]]];
         rewrite E in *; cbn [fst snd] in *;
         [ congruence
         | apply Hsame; cbn; rewrite ?written_app; cbn;
           rewrite ?append_empty_r; reflexivity
         | destruct (errOut (set_wakers rest (world s)));
           cbn [fst snd] in *; [congruence|];
           go_simpl; rewrite written_app, !append_empty_r; reflexivity
         | match type of Hr with
           | context [if ?b then _ else _] => destruct b
           end; cbn [fst snd] in *; [congruence|];
           match goal with |- context [flushed ?dd ?x] =>
             destruct (flushed_fields dd x) as (_ & F2 & _);
             rewrite F2, (written_flushed dd x)
           end;
           go_simpl; rewrite written_app, !append_empty_r; reflexivity ] ]).
  - unfold timeout. go_simpl. rewrite append_empty_r. reflexivity.
Qed.

Lemma conserve_run (acts : list action) :
  forall s,
    writer (run acts s) <> Returned ->
    String.append (written (trace (world (run acts s))))
                  (String.concat "" (linesToSend (world (run acts s))))
    = String.append
        (String.append (written (trace (world s)))
                       (String.concat "" (linesToSend (world s))))
        (accepted acts s).
Proof.
  induction acts as [|a acts IH]; intros s Hr; cbn [run fold_left accepted].
  - rewrite append_empty_r. reflexivity.
  - fold (run acts (step s a)) in *. cbn [run fold_left] in Hr.
    fold (run acts (step s a)) in Hr.
    rewrite (IH (step s a) Hr).
    rewrite conserve_step.
    + rewrite !append_assoc. reflexivity.
    + intros H. apply Hr. apply run_Returned. exact H.
Qed.

(** X7: no queued byte is lost, repeated or reordered while the writer
    runs.  Under every interleaving of calls and turns of the writer
    that starts from a new socket, as long as [RunSocketWriter] has not
    returned, the bytes handed to the connection followed by the bytes
    still in the queue are exactly the bytes that the calls of [Write]
    and [WriteLine] on the open socket have queued, in the order of the
    calls. *)
Theorem queued_bytes_are_conserved
        (c : Conn) (maxSendQBytes : Z) (acts : list action) :
  let s := run acts (start c maxSendQBytes) in
  writer s <> Returned ->
  String.append (written (trace (world s)))
                (String.concat "" (linesToSend (world s)))
  = accepted acts (start c maxSendQBytes).
Proof.
  intros s Hr. subst s. rewrite (conserve_run acts _ Hr). reflexivity.
Qed.

Lemma queued_bytes_are_conserved_witness :
  let acts := [ActWriteLine "NICK dan"; ActWriter; ActWrite "PI";
               ActWrite "NG"; ActWriter; ActWriter; ActWriteLine "x"] in
  let s := run acts (start (plainConn "") 512) in
  writer s <> Returned
  /\ written (trace (world s))
     = String.append "NICK dan" (String.append CRLF "PING")
  /\ linesToSend (world s) = [String.append "x" CRLF]
  /\ accepted acts (start (plainConn "") 512)
     = String.append "NICK dan"
         (String.append CRLF (String.append "PING" (String.append "x" CRLF))).
Proof.
  intros acts s.
  assert (H : writer s <> Returned) by (vm_compute; discriminate).
  pose proof (queued_bytes_are_conserved (plainConn "") 512 acts H) as E.
  split; [exact H|]. split; [reflexivity|]. split; [reflexivity|].
  rewrite <- E. reflexivity.
Defined.

(** ** The queue and its mutex *)








(** ** The lines that Read returns *)

Lemma readUntil_spec (d : ascii) (l : list incoming) :
  forall bs err rest,
    readUntil d l = (bs, err, rest) ->
    match err with
    | None => exists pre, bs = pre ++ [d] /\ ~ In d pre
    | Some _ => ~ In d bs
    end.
Proof.
  induction l as [|x l IH]; intros bs err rest H; cbn [readUntil] in H.
  - inversion H; subst. intros [].
  - destruct x as [b|e].
    + destruct (Ascii.eqb_spec b d) as [->|Hne].
      * inversion H; subst. exists []. split; [reflexivity|intros []].
      * destruct (readUntil d l) as [[bs' err'] rest'] eqn:Hr.
        inversion H; subst. specialize (IH _ _ _ eq_refl).
        destruct err as [e|].
        -- intros [E|Hin]; [congruence|contradiction].
        -- destruct IH as (pre & -> & Hpre). exists (b :: pre).
           split; [reflexivity|]. intros [E|Hin]; [congruence|contradiction].
    + inversion H; subst. intros [].
Qed.

Lemma readUntil_line (d : ascii) (pre : list ascii) (rest : list incoming) :
  ~ In d pre ->
  readUntil d (map Byte (pre ++ [d]) ++ rest) = (pre ++ [d], None, rest).
Proof.
  induction pre as [|b pre IH]; intros Hn; cbn [map app readUntil].
  - rewrite Ascii.eqb_refl. reflexivity.
  - destruct (Ascii.eqb_spec b d) as [->|Hne].
    + exfalso. apply Hn. left. reflexivity.
    + rewrite IH; [reflexivity|]. intros Hin. apply Hn. right. exact Hin.
Qed.

Lemma dropWhile_incl {A : Type} (p : A -> bool) (l : list A) (x : A) :
  In x (dropWhile p l) -> In x l.
Proof.
  induction l as [|y l IH]; cbn [dropWhile]; [auto|].
  destruct (p y); [|auto]. intros H. right. apply IH. exact H.
Qed.

Lemma TrimRight_bytes (bs : list ascii) (cutset : string) :
  list_ascii_of_string (TrimRight (string_of_list_ascii bs) cutset)
  = rev (dropWhile (inCutset cutset) (rev bs)).
Proof.
  unfold TrimRight.
  rewrite !list_ascii_of_string_of_list_ascii. reflexivity.
Qed.

Lemma TrimRight_incl (bs : list ascii) (x : ascii) :
  In x (list_ascii_of_string (TrimRight (string_of_list_ascii bs) CRLF)) ->
  In x bs.
Proof.
  rewrite TrimRight_bytes. intros H. apply in_rev in H.
  apply dropWhile_incl in H. apply in_rev. exact H.
Qed.

Lemma TrimRight_drops_LF (pre : list ascii) :
  TrimRight (string_of_list_ascii (pre ++ [LF])) CRLF
  = TrimRight (string_of_list_ascii pre) CRLF.
Proof.
  unfold TrimRight. rewrite !list_ascii_of_string_of_list_ascii.
  rewrite rev_app_distr. reflexivity.
Qed.

(** X9: what [Read] hands back is either a line or an error, never
    both.  With an error the line is empty, so bytes read before a
    failure are dropped; with a nil error the line holds no line feed
    and does not end in a carriage return or a line feed. *)
Theorem Read_line_or_error (w : World) :
  match snd (fst (Read w)) with
  | Some _ => fst (fst (Read w)) = ""
  | None =>
      ~ In LF (list_ascii_of_string (fst (fst (Read w))))
      /\ endsInCRLF (fst (fst (Read w))) = false
  end.
Proof.
  destruct (Closed w) eqn:Hc.
  - rewrite (Read_closed w Hc). reflexivity.
  - destruct (readUntil LF (unread (conn w))) as [[bs err] rest] eqn:Hr.
    rewrite (Read_open w bs err rest Hc Hr). cbn [fst snd].
    pose proof (readUntil_spec _ _ _ _ _ Hr) as Hs.
    assert (Hline :
      ~ In LF (list_ascii_of_string (TrimRight (string_of_list_ascii bs) CRLF))
      /\ endsInCRLF (TrimRight (string_of_list_ascii bs) CRLF) = false).
    { split; [|apply TrimRight_CRLF].
      destruct err as [e|].
      - intros Hin. apply Hs. apply TrimRight_incl. exact Hin.
      - destruct Hs as (pre & -> & Hpre). rewrite TrimRight_drops_LF.
        intros Hin. apply Hpre. apply TrimRight_incl. exact Hin. }
    destruct (isEOF err && negb (String.eqb (TrimSpace _) "")); cbn [fst snd].
    + exact Hline.
    + destruct err as [e|]; cbn [fst snd]; [reflexivity|exact Hline].
Qed.

(** X10: the end of the stream closes the socket for good.  When the
    read of an open socket meets the end of the stream, whatever the
    residual, the socket is closed by that call and one wake of 200ms
    is offered to the writer; a residual of white space only is
    dropped and [io.EOF] returned; and the calls that follow fail:
    [Read] returns [io.EOF] without reading, [Write] returns [io.EOF]
    without queueing. *)
Theorem Read_end_of_stream_closes
        (w : World) (residual : list ascii) (rest : list incoming)
        (data : string) :
  Closed w = false ->
  readUntil LF (unread (conn w)) = (residual, Some EOF, rest) ->
  let w' := snd (Read w) in
  Closed w' = true
  /\ wakers w' = wakers w ++ [200]
  /\ (if String.eqb (TrimSpace (string_of_list_ascii residual)) ""
      then fst (Read w) = ("", Some EOF)
      else fst (Read w)
           = (TrimRight (string_of_list_ascii residual) CRLF, None))
  /\ Read w' = (("", Some EOF), w')
  /\ Write data w' = (Some EOF, w').
Proof.
  intros Hc Hr w'. subst w'.
  rewrite (Read_open w residual (Some EOF) rest Hc Hr).
  cbn [fst snd isEOF error_eqb andb].
  match goal with |- context [Close ?x] =>
    assert (Hc1 : Closed x = false) by exact Hc;
    rewrite (Close_open x Hc1) end.
  cbn [snd].
  split; [reflexivity|]. split; [reflexivity|]. split.
  - destruct (String.eqb (TrimSpace (string_of_list_ascii residual)) "");
      reflexivity.
  - split; [apply Read_closed|apply Write_closed]; reflexivity.
Qed.

Lemma Read_end_of_stream_closes_witness :
  Closed blankSocket = false
  /\ fst (Read blankSocket) = ("", Some EOF)
  /\ Closed (snd (Read blankSocket)) = true
  /\ fst (Write "PONG" (snd (Read blankSocket))) = Some EOF.
Proof.
  assert (H1 : Closed blankSocket = false) by reflexivity.
  assert (H2 : readUntil LF (unread (conn blankSocket))
               = ([" "%char], Some EOF, [])) by reflexivity.
  destruct (Read_end_of_stream_closes blankSocket _ _ "PONG" H1 H2)
    as (R1 & _ & R3 & _ & R5).
  split; [exact H1|]. split; [exact R3|]. split; [exact R1|].
  rewrite R5. reflexivity.
Defined.

(** ** WriteLine and Read *)

Lemma bytes_append (a b : string) :
  list_ascii_of_string (String.append a b)
  = list_ascii_of_string a ++ list_ascii_of_string b.
Proof.
  induction a as [|x a IH]; cbn; [reflexivity|]. rewrite IH. reflexivity.
Qed.

Lemma dropWhile_plain (line : string) :
  endsInCRLF line = false ->
  dropWhile (inCutset CRLF) (rev (list_ascii_of_string line))
  = rev (list_ascii_of_string line).
Proof.
  unfold endsInCRLF.
  destruct (rev (list_ascii_of_string line)) as [|b r]; [reflexivity|].
  intros H. cbn [dropWhile]. rewrite H. reflexivity.
Qed.

Lemma TrimRight_framed_line (line : string) :
  endsInCRLF line = false ->
  TrimRight (string_of_list_ascii
               (list_ascii_of_string line ++ list_ascii_of_string CRLF)) CRLF
  = line.
Proof.
  intros H. unfold TrimRight.
  rewrite list_ascii_of_string_of_list_ascii, rev_app_distr.
  cbn [CRLF list_ascii_of_string rev app dropWhile].
  change (inCutset CRLF "010"%char) with true.
  change (inCutset CRLF "013"%char) with true.
  cbn iota. rewrite (dropWhile_plain line H), rev_involutive.
  apply string_of_list_ascii_of_string.
Qed.

Lemma Read_one_line (w : World) (line : string) (rest : list incoming) :
  Closed w = false ->
  plainLine line ->
  unread (conn w)
  = map Byte (list_ascii_of_string (String.append line CRLF)) ++ rest ->
  Read w
  = ((line, None),
     set_conn {| asTLS := asTLS (conn w); unread := rest;
                 writeResults := writeResults (conn w) |} w).
Proof.
  intros Hc (Hlf & Hend) Hu.
  assert (Hr : readUntil LF (unread (conn w))
               = (list_ascii_of_string line ++ list_ascii_of_string CRLF,
                  None, rest)).
  { rewrite Hu, bytes_append.
    change (list_ascii_of_string CRLF) with (["013"%char] ++ [LF]).
    rewrite app_assoc. apply readUntil_line.
    intros Hin. apply in_app_or in Hin. destruct Hin as [Hin|[E|[]]].
    - contradiction.
    - discriminate E. }
  rewrite (Read_open w _ None rest Hc Hr). cbn [isEOF andb].
  rewrite (TrimRight_framed_line line Hend). reflexivity.
Qed.

Lemma WriteLines_queue (lines : list string) :
  forall w, Closed w = false ->
    String.concat ""
      (linesToSend (fold_left (fun w' l => snd (WriteLine l w')) lines w))
    = String.append (String.concat "" (linesToSend w)) (framed lines).
Proof.
  induction lines as [|l lines IH]; intros w Hc; cbn [fold_left framed].
  - rewrite append_empty_r. reflexivity.
  - unfold WriteLine at 2. rewrite (Write_open _ w Hc). cbn [snd].
    rewrite IH by exact Hc. go_simpl.
    rewrite concat_empty_app, append_assoc. cbn [String.concat].
    reflexivity.
Qed.

(** X11: what [WriteLine] frames, [Read] unframes.  The calls
    [WriteLine l1], ..., [WriteLine ln] on an open socket with an empty
    queue leave in the queue the bytes of [l1], CR, LF, ..., [ln], CR,
    LF; and a socket that receives these bytes returns [l1], ..., [ln]
    with nil errors from its next [n] calls of [Read], stays open and
    has consumed exactly these bytes, provided that no line holds a
    line feed or ends in a carriage return. *)
Theorem WriteLine_Read_roundtrip
        (lines : list string) (sender receiver : World)
        (rest : list incoming) :
  Closed sender = false ->
  linesToSend sender = [] ->
  Closed receiver = false ->
  Forall plainLine lines ->
  let payload :=
    String.concat ""
      (linesToSend
         (fold_left (fun w' l => snd (WriteLine l w')) lines sender)) in
  unread (conn receiver) = map Byte (list_ascii_of_string payload) ++ rest ->
  let r := reads (List.length lines) receiver in
  payload = framed lines
  /\ fst r = map (fun l => (l, None)) lines
  /\ unread (conn (snd r)) = rest
  /\ Closed (snd r) = false.
Proof.
  intros Hs Hq Hc Hpl payload Hu r.
  assert (Hp : payload = framed lines).
  { subst payload. rewrite (WriteLines_queue lines sender Hs), Hq.
    reflexivity. }
  split; [exact Hp|]. rewrite Hp in Hu. clear Hp payload Hs Hq sender.
  subst r. revert receiver Hc Hu.
  induction Hpl as [|l lines Hl Hpl IH]; intros receiver Hc Hu;
    cbn [List.length reads map framed] in *.
  - cbn in Hu. repeat split; assumption.
  - rewrite bytes_append, map_app, <- app_assoc in Hu.
    rewrite (Read_one_line receiver l _ Hc Hl Hu). cbn [fst snd].
    match goal with |- context [reads _ ?x] =>
      destruct (IH x Hc eq_refl) as (I1 & I2 & I3) end.
    rewrite I1. repeat split; assumption.
Qed.

Lemma WriteLine_Read_roundtrip_witness :
  let lines := ["NICK dan"; ""; "PRIVMSG #chat :hi"] in
  let receiver :=
    NewSocket (plainConn (String.append (framed lines) "QUIT")) 512 in
  Forall plainLine lines
  /\ fst (reads 3 receiver)
     = [("NICK dan", None); ("", None); ("PRIVMSG #chat :hi", None)]
  /\ unread (conn (snd (reads 3 receiver))) = map Byte (bytes "QUIT").
Proof.
  intros lines receiver.
  assert (Hpl : Forall plainLine lines).
  { repeat constructor; cbn; intuition discriminate. }
  assert (Hu : unread (conn receiver)
               = map Byte
                   (list_ascii_of_string
                      (String.concat ""
                         (linesToSend
                            (fold_left (fun w' l => snd (WriteLine l w'))
                               lines (NewSocket (plainConn "") 512)))))
                   ++ map Byte (bytes "QUIT")) by reflexivity.
  destruct (WriteLine_Read_roundtrip lines (NewSocket (plainConn "") 512)
              receiver _ eq_refl eq_refl eq_refl Hpl Hu) as (_ & R2 & R3 & _).
  split; [exact Hpl|]. split; [exact R2|exact R3].
Defined.

(** ** More on CertFP *)

Lemma CertFP_result_conn (w1 w2 : World) :
  conn w1 = conn w2 -> fst (CertFP w1) = fst (CertFP w2).
Proof.
  intros H. unfold CertFP. go_simpl. rewrite H.
  destruct (asTLS (conn w2)) as [tlsConn|]; go_simpl; [|reflexivity].
  destruct (handshakeResult tlsConn) as [e|]; go_simpl; [reflexivity|].
  destruct (PeerCertificates tlsConn) as [|leaf others]; reflexivity.
Qed.

(** X12: [CertFP] only talks to the TLS layer.  On a connection that
    is not TLS it makes no call at all; on a TLS connection it sets the
    deadline of five seconds, runs the handshake and clears the
    deadline again on every path, also when the handshake fails or no
    certificate was presented.  The socket itself (closed flag, queue,
    final data, pending wakes) is left as it was, so a second call
    returns what the first returned. *)
Theorem CertFP_clears_deadline (w : World) :
  snd (CertFP w)
  = set_trace
      (trace w
       ++ match asTLS (conn w) with
          | None => []
          | Some _ => [EvSetDeadline (Some 5000); EvHandshake;
                       EvSetDeadline None]
          end) w
  /\ fst (CertFP (snd (CertFP w))) = fst (CertFP w).
Proof.
  split.
  - rewrite CertFP_world. reflexivity.
  - apply CertFP_result_conn. rewrite CertFP_world. reflexivity.
Qed.

Lemma hexvalue_high (v : ascii) :
  hexvalue (hexdigit (N.shiftr (code v) 4)) = N.shiftr (code v) 4.
Proof.
  destruct v as [[] [] [] [] [] [] [] []]; reflexivity.
Qed.

Lemma hexvalue_low (v : ascii) :
  hexvalue (hexdigit (N.land (code v) 15)) = N.land (code v) 15.
Proof.
  destruct v as [[] [] [] [] [] [] [] []]; reflexivity.
Qed.

Lemma nibbles_rebuild (v : ascii) :
  ascii_of_N (N.shiftr (code v) 4 * 16 + N.land (code v) 15) = v.
Proof.
  destruct v as [[] [] [] [] [] [] [] []]; reflexivity.
Qed.

Lemma nibbles_determine (v v' : ascii) :
  N.shiftr (code v) 4 = N.shiftr (code v') 4 ->
  N.land (code v) 15 = N.land (code v') 15 ->
  v = v'.
Proof.
  intros H1 H2.
  rewrite <- (nibbles_rebuild v), <- (nibbles_rebuild v'), H1, H2.
  reflexivity.
Qed.

Lemma EncodeToString_injective (a : list ascii) :
  forall b, EncodeToString a = EncodeToString b -> a = b.
Proof.
  induction a as [|v a IH]; intros [|v' b] H; cbn [EncodeToString] in H;
    try discriminate; [reflexivity|].
  assert (H1 : hexdigit (N.shiftr (code v) 4)
               = hexdigit (N.shiftr (code v') 4)) by congruence.
  assert (H2 : hexdigit (N.land (code v) 15)
               = hexdigit (N.land (code v') 15)) by congruence.
  assert (H3 : EncodeToString a = EncodeToString b) by congruence.
  f_equal; [|apply IH; exact H3].
  apply nibbles_determine.
  - rewrite <- (hexvalue_high v), <- (hexvalue_high v'), H1. reflexivity.
  - rewrite <- (hexvalue_low v), <- (hexvalue_low v'), H2. reflexivity.
Qed.

(** X13: the fingerprint tells digests apart.  For two TLS sockets
    whose handshakes succeed and whose peers presented certificates,
    [CertFP] returns the same fingerprint exactly when the SHA-256
    digests of the two leaf certificates are the same: the hexadecimal
    form loses nothing. *)
Theorem CertFP_equal_iff_digest_equal
        (w1 w2 : World) (t1 t2 : TLSConn) (leaf1 leaf2 : Certificate)
        (others1 others2 : list Certificate) :
  asTLS (conn w1) = Some t1 -> handshakeResult t1 = None ->
  PeerCertificates t1 = leaf1 :: others1 ->
  asTLS (conn w2) = Some t2 -> handshakeResult t2 = None ->
  PeerCertificates t2 = leaf2 :: others2 ->
  (fst (CertFP w1) = fst (CertFP w2)
   <-> Sum256 (Raw leaf1) = Sum256 (Raw leaf2)).
Proof.
  intros A1 B1 C1 A2 B2 C2.
  assert (E1 : fst (CertFP w1) = (EncodeToString (Sum256 (Raw leaf1)), None)).
  { unfold CertFP. go_simpl. rewrite A1. go_simpl. rewrite B1. go_simpl.
    rewrite C1. reflexivity. }
  assert (E2 : fst (CertFP w2) = (EncodeToString (Sum256 (Raw leaf2)), None)).
  { unfold CertFP. go_simpl. rewrite A2. go_simpl. rewrite B2. go_simpl.
    rewrite C2. reflexivity. }
  rewrite E1, E2. split.
  - intros H. inversion H as [H']. apply EncodeToString_injective. exact H'.
  - intros ->. reflexivity.
Qed.

Lemma CertFP_equal_iff_digest_equal_witness :
  fst (CertFP (tlsSocket None ["abc"; "chain"]))
  = ("ba7816bf8f01cfea414140de5dae2223b00361a396177a9cb410ff61f20015ad",
     None)
  /\ fst (CertFP (tlsSocket None ["abc"; "chain"]))
     <> fst (CertFP (tlsSocket None [""])).
Proof.
  split; [vm_compute; reflexivity|].
  intros H.
  assert (D : Sum256 (bytes "abc") = Sum256 (bytes "")).
  { apply (CertFP_equal_iff_digest_equal
             (tlsSocket None ["abc"; "chain"]) (tlsSocket None [""])
             _ _ {| Raw := bytes "abc" |} {| Raw := bytes "" |}
             [{| Raw := bytes "chain" |}] []
             eq_refl eq_refl eq_refl eq_refl eq_refl eq_refl).
    exact H. }
  vm_compute in D. discriminate D.
Defined.

(** ** The writer waits for its wakes *)




(** ** A socket over its limit *)





